(** * Packed integer arrays of golucene (package util): a shallow embedding

    The Go source declares the version guard [CheckVersion], the format
    descriptor ([PackedFormat] with [ByteCount] and [longCount]), the readers
    built from a binary input ([newDirect8FromInput] ... [newPacked64FromInput]),
    the dispatch [newPackedHeaderNoHeader] and the [GrowableWriter].

    Go integers are modelled as [Z] with their wrap-around written out, Go
    slices as lists, a run-time panic as the [Abort] outcome, and the
    [*DataInput] cursor by explicit state passing.

    The source is a port in progress and leaves some names unresolved; they
    are read as their evident referents: [newPakedIntsReaderImpl] as
    [newPackedIntsReaderImpl], [PACKED.LongCount] as [longCount], [values]
    and [blocks] in a method or constructor as the fields of the reader at
    hand, the parameter [int] of [newPacked64FromInput] as the [in] its body
    reads from, and [newDirect64] as building a [Direct64] of [int64]. *)

From Stdlib Require Import ZArith Lia Bool.
From stdpp Require Import base tactics option list strings gmap.

Local Open Scope Z_scope.

(** ** Machine integers *)

Module GoInt.

(** Two's-complement value of [x] in a signed [w]-bit integer. *)
Definition wrap_signed (w : Z) (x : Z) : Z :=
  (x + 2 ^ (w - 1)) mod 2 ^ w - 2 ^ (w - 1).

(** Value of [x] in an unsigned [w]-bit integer. *)
Definition wrap_unsigned (w : Z) (x : Z) : Z := x mod 2 ^ w.

Definition int32 := wrap_signed 32.
Definition int64 := wrap_signed 64.
Definition uint8 := wrap_unsigned 8.
Definition uint32 := wrap_unsigned 32.
Definition uint64 := wrap_unsigned 64.

Definition MaxInt32 : Z := 2 ^ 31 - 1.

(** [x << s] on a [w]-bit operand, for a shift count [s >= 0]: Go shifts
    "as if the left operand is shifted [s] times by 1", so a count of [w]
    or more leaves no bit. *)
Definition shl_signed (w x s : Z) : Z :=
  if w <=? s then 0 else wrap_signed w (Z.shiftl x s).
Definition shl_unsigned (w x s : Z) : Z :=
  if w <=? s then 0 else wrap_unsigned w (Z.shiftl x s).

(** [x >> s] on an unsigned [w]-bit operand (logical shift). *)
Definition shr_unsigned (w x s : Z) : Z :=
  if w <=? s then 0 else Z.shiftr x s.

(** [float64(x)] for an integer [x]: the nearest double, ties to even.
    Every integer below [2^53] in magnitude is a double; above, the
    spacing of doubles is [2 ^ (log2 |x| - 52)]. The result is an integer. *)
Definition float64 (x : Z) : Z :=
  let a := Z.abs x in
  if a <? 2 ^ 53 then x
  else
    let ulp := 2 ^ (Z.log2 a - 52) in
    let q := a / ulp in
    let r := a mod ulp in
    let q' := if 2 * r <? ulp then q
              else if ulp <? 2 * r then q + 1
              else if Z.even q then q else q + 1 in
    Z.sgn x * (q' * ulp).

(** [math.Ceil(x / d)] for an integer-valued double [x] and [d] a power of
    two (the quotient is then exact), and for the small operands of
    [longCount] (see there). *)
Definition ceil_quot (x d : Z) : Z := - ((- x) / d).

End GoInt.

Import GoInt.

(** ** Outcomes *)

(** What stops a call short of returning: the [panic] calls of the source,
    the run-time panics of Go, and what the language leaves open. *)
Inductive abort : Type :=
  | VersionTooOld (least got : Z)
  | VersionTooNew (most got : Z)
  | MaxSizeExceeded
  | UnknownWriterFormat (format : Z)
  | IndexOutOfRange
  | NegativeShift
  | MakeSliceLenOutOfRange
  | DivideByZero
  | StackExhausted
  | ImplementationDependent.

Inductive result (A : Type) : Type :=
  | Ok (a : A)
  | Abort (p : abort).

Arguments Ok {A} a.
Arguments Abort {A} p.

Definition result_bind {A B : Type} (r : result A) (k : A -> result B) : result B :=
  match r with
  | Ok a => k a
  | Abort p => Abort p
  end.

Definition aborts {A : Type} (r : result A) : Prop := exists p, r = Abort p.

(** ** Versions *)

Definition PACKED_VERSION_START : Z := 0.
Definition PACKED_VERSION_BYTE_ALIGNED : Z := 1.
Definition PACKED_VERSION_CURRENT : Z := PACKED_VERSION_BYTE_ALIGNED.

Definition CheckVersion (version : Z) : result unit :=
  if version <? PACKED_VERSION_START then
    Abort (VersionTooOld PACKED_VERSION_START version)
  else if PACKED_VERSION_CURRENT <? version then
    Abort (VersionTooNew PACKED_VERSION_CURRENT version)
  else Ok tt.

Definition supported_version (version : Z) : Prop :=
  PACKED_VERSION_START <= version <= PACKED_VERSION_CURRENT.

(** ** Format descriptor *)

(** [type PackedFormat int] *)
Definition PackedFormat : Type := Z.
Definition PACKED : PackedFormat := 0.
Definition PACKED_SINGLE_BLOCK : PackedFormat := 1.

(** [ByteCount] and [longCount] call each other. [depth] bounds the nesting
    of calls; running out of it is [StackExhausted]. Lemmas
    [ByteCount_at_PACKED], [ByteCount_at_stable] and [ByteCount_at_unknown]
    below show that two levels decide every call: the two known formats
    return within them, every other format recurses for ever. *)
Fixpoint ByteCount_at (depth : nat)
    (f : PackedFormat) (packedIntsVersion valueCount bitsPerValue : Z)
    : result Z :=
  match depth with
  | O => Abort StackExhausted
  | S depth' =>
    if f =? PACKED then
      if packedIntsVersion <? PACKED_VERSION_BYTE_ALIGNED then
        Ok (int64 (8 * ceil_quot (float64 (float64 valueCount * float64 bitsPerValue)) 64))
      else
        Ok (ceil_quot (float64 (float64 valueCount * float64 bitsPerValue)) 8)
    else
      result_bind (longCount_at depth' f packedIntsVersion valueCount bitsPerValue)
        (fun c => Ok (int64 (8 * c)))
  end
with longCount_at (depth : nat)
    (f : PackedFormat) (packedIntsVersion valueCount bitsPerValue : Z)
    : result Z :=
  match depth with
  | O => Abort StackExhausted
  | S depth' =>
    if f =? PACKED_SINGLE_BLOCK then
      if bitsPerValue =? 0 then Abort DivideByZero
      else
        let valuesPerBlock := 64 / bitsPerValue in
        (* a quotient of doubles by zero is infinite or NaN, and its
           conversion to int is left open by the language; for a divisor in
           1..64 and an int32 dividend the rounded quotient has the ceiling
           of the exact one *)
        if valuesPerBlock =? 0 then Abort ImplementationDependent
        else Ok (ceil_quot valueCount valuesPerBlock)
    else
      result_bind (ByteCount_at depth' f packedIntsVersion valueCount bitsPerValue)
        (fun ans => if ans `rem` 8 =? 0 then Ok (ans `quot` 8)
                    else Ok (ans `quot` 8 + 1))
  end.

Definition ByteCount := ByteCount_at 2.
Definition longCount := longCount_at 2.

(** ** Binary input *)

(** The error value a failed read hands back. *)
Inductive IOError : Type :=
  | EOF
  | ReadFailure (code : Z).

(** Modelled from the spec: the [DataInput] type and its methods [ReadByte],
    [ReadBytes], [ReadShort], [ReadInt] and [ReadLong] are not part of the
    source. The input is what the successive byte reads will meet: a byte, or
    a failure of the underlying stream; past its end every read fails with
    [EOF]. Multi-byte reads are big-endian sequences of byte reads. *)
Inductive event : Type :=
  | Byte (b : Z)
  | Fail (e : IOError).

Definition DataInput : Type := list event.

(** A call that reads from the input: it aborts, or returns a value and the
    advanced input. *)
Definition M (A : Type) : Type := DataInput -> result (A * DataInput).

Definition mret {A : Type} (a : A) : M A := fun s => Ok (a, s).

Definition mbind {A B : Type} (c : M A) (k : A -> M B) : M B :=
  fun s => match c s with
           | Ok (a, s') => k a s'
           | Abort p => Abort p
           end.

Definition lift {A : Type} (r : result A) : M A :=
  fun s => match r with
           | Ok a => Ok (a, s)
           | Abort p => Abort p
           end.

Declare Scope io_scope.
Delimit Scope io_scope with io.
Notation "'let*' pat ':=' c 'in' k" :=
  (mbind c (fun x => match x with pat => k end))
  (at level 10, pat pattern, c at level 100, k at level 200) : io_scope.
Local Open Scope io_scope.

(** Go's [error] return value: [None] is [nil]. *)
Definition error : Type := option IOError.

(** Modelled from the spec: one byte read. *)
Definition ReadByte : M (Z * error) :=
  fun s => match s with
           | [] => Ok ((0, Some EOF), [])
           | Byte b :: s' => Ok ((uint8 b, None), s')
           | Fail e :: s' => Ok ((0, Some e), s')
           end.

(** Modelled from the spec: [ReadBytes(buf)] fills [buf] from its start and
    stops at the first error. *)
Fixpoint ReadBytes (buf : list Z) : M (list Z * error) :=
  match buf with
  | [] => mret ([], None)
  | old :: rest =>
      let* (b, err) := ReadByte in
      match err with
      | Some e => mret (old :: rest, Some e)
      | None =>
          let* (rest', err') := ReadBytes rest in
          mret (b :: rest', err')
      end
  end.

(** Modelled from the spec: big-endian accumulation of [k] more bytes onto
    [acc]; the value returned with an error is 0. *)
Fixpoint read_be (k : nat) (acc : Z) : M (Z * error) :=
  match k with
  | O => mret (acc, None)
  | S k' =>
      let* (b, err) := ReadByte in
      match err with
      | Some e => mret (0, Some e)
      | None => read_be k' (acc * 256 + b)
      end
  end.

(** Modelled from the spec: [ReadShort], [ReadInt] and [ReadLong] read 2, 4
    and 8 bytes into an [int16], [int32] and [int64]. *)
Definition ReadShort : M (Z * error) :=
  let* (v, err) := read_be 2 0 in mret (wrap_signed 16 v, err).
Definition ReadInt : M (Z * error) :=
  let* (v, err) := read_be 4 0 in mret (int32 v, err).
Definition ReadLong : M (Z * error) :=
  let* (v, err) := read_be 8 0 in mret (int64 v, err).

(** The error met, if any, by [k] successive byte reads that stop at the
    first failure, and the input they leave. *)
Fixpoint first_failure (k : nat) (s : DataInput) : error :=
  match k with
  | O => None
  | S k' =>
      match s with
      | [] => Some EOF
      | Byte _ :: s' => first_failure k' s'
      | Fail e :: _ => Some e
      end
  end.

Fixpoint advance (k : nat) (s : DataInput) : DataInput :=
  match k with
  | O => s
  | S k' =>
      match s with
      | [] => []
      | Byte _ :: s' => advance k' s'
      | Fail _ :: s' => s'
      end
  end.

(** ** Slices and loops shared by the readers *)

(** [make([]T, n)] *)
Definition make (n : Z) : result (list Z) :=
  if n <? 0 then Abort MakeSliceLenOutOfRange
  else Ok (replicate (Z.to_nat n) 0).

(** [s[i]] *)
Definition index (s : list Z) (i : Z) : result Z :=
  if i <? 0 then Abort IndexOutOfRange
  else match s !! Z.to_nat i with
       | Some v => Ok v
       | None => Abort IndexOutOfRange
       end.

(** [s[i] = v] *)
Definition assign (s : list Z) (i : Z) (v : Z) : result (list Z) :=
  if i <? 0 then Abort IndexOutOfRange
  else if Z.of_nat (length s) <=? i then Abort IndexOutOfRange
  else Ok (<[Z.to_nat i := v]> s).

(** [for i := 0; i < remaining; i++ { if _, err = in.ReadByte(); err != nil { break } }] *)
Fixpoint skip_padding (remaining : nat) : M error :=
  match remaining with
  | O => mret None
  | S k =>
      let* (_, err) := ReadByte in
      match err with
      | Some e => mret (Some e)
      | None => skip_padding k
      end
  end.

(** [for i, _ := range values { if values[i], err = read(); err != nil { break } }]:
    the cell is assigned also when the read fails. *)
Fixpoint range_fill (read : M (Z * error)) (values : list Z) : M (list Z * error) :=
  match values with
  | [] => mret ([], None)
  | _ :: rest =>
      let* (v, err) := read in
      match err with
      | Some e => mret (v :: rest, Some e)
      | None =>
          let* (rest', err') := range_fill read rest in
          mret (v :: rest', err')
      end
  end.

(** ** Readers *)

Record PackedIntsReaderImpl : Type := {
  bitsPerValue : Z;
  valueCount : Z
}.

Definition newPackedIntsReaderImpl (valueCount bitsPerValue : Z) : PackedIntsReaderImpl :=
  {| bitsPerValue := bitsPerValue; valueCount := valueCount |}.

Definition Size (p : PackedIntsReaderImpl) : Z := valueCount p.

Module Direct8.
Record t : Type := { impl : PackedIntsReaderImpl; values : list Z }.
End Direct8.

Module Direct16.
Record t : Type := { impl : PackedIntsReaderImpl; values : list Z }.
End Direct16.

Module Direct32.
Record t : Type := { impl : PackedIntsReaderImpl; values : list Z }.
End Direct32.

Module Direct64.
Record t : Type := { impl : PackedIntsReaderImpl; values : list Z }.
End Direct64.

Module Packed8ThreeBlocks.
Record t : Type := { impl : PackedIntsReaderImpl; blocks : list Z }.
End Packed8ThreeBlocks.

Module Packed16ThreeBlocks.
Record t : Type := { impl : PackedIntsReaderImpl; blocks : list Z }.
End Packed16ThreeBlocks.

Module Packed64.
Record t : Type := {
  impl : PackedIntsReaderImpl;
  blocks : list Z;
  maskRight : Z;
  bpvMinusBlockSize : Z
}.
End Packed64.

(** Modelled from the spec: the single-block reader's type is not part of the
    source; the spec gives it a buffer of 64-bit words holding whole values. *)
Module Packed64SingleBlock.
Record t : Type := { impl : PackedIntsReaderImpl; blocks : list Z }.
End Packed64SingleBlock.

(** The [PackedIntsReader] interface, as the closed set of types the source
    returns through it. A value of interface type may be [nil]: the
    constructors return an [option PackedIntsReader], [None] being [nil]. *)
Inductive PackedIntsReader : Type :=
  | IsDirect8 (r : Direct8.t)
  | IsDirect16 (r : Direct16.t)
  | IsDirect32 (r : Direct32.t)
  | IsDirect64 (r : Direct64.t)
  | IsPacked8ThreeBlocks (r : Packed8ThreeBlocks.t)
  | IsPacked16ThreeBlocks (r : Packed16ThreeBlocks.t)
  | IsPacked64 (r : Packed64.t)
  | IsPacked64SingleBlock (r : Packed64SingleBlock.t).

Definition reader_impl (r : PackedIntsReader) : PackedIntsReaderImpl :=
  match r with
  | IsDirect8 r => Direct8.impl r
  | IsDirect16 r => Direct16.impl r
  | IsDirect32 r => Direct32.impl r
  | IsDirect64 r => Direct64.impl r
  | IsPacked8ThreeBlocks r => Packed8ThreeBlocks.impl r
  | IsPacked16ThreeBlocks r => Packed16ThreeBlocks.impl r
  | IsPacked64 r => Packed64.impl r
  | IsPacked64SingleBlock r => Packed64SingleBlock.impl r
  end.

(** [Size] is promoted from the embedded [PackedIntsReaderImpl]. *)
Definition reader_Size (r : PackedIntsReader) : Z := Size (reader_impl r).

(** *** Direct8 *)

Definition newDirect8 (valueCount : Z) : result Direct8.t :=
  result_bind (make valueCount) (fun values =>
  Ok {| Direct8.impl := newPackedIntsReaderImpl valueCount 8;
        Direct8.values := values |}).

(** The padding loop of every fixed-width reader: [remaining] is
    [PACKED.ByteCount(version, valueCount, bits) - native], and the loop runs
    while [i < remaining]. *)
Definition consume_padding (version valueCount bits native : Z) : M error :=
  let* byteCount := lift (ByteCount PACKED version valueCount bits) in
  let remaining := byteCount - native in
  skip_padding (Z.to_nat remaining).

Definition newDirect8FromInput (version valueCount : Z) : M (option PackedIntsReader * error) :=
  let* r := lift (newDirect8 valueCount) in
  let* (values, err) := ReadBytes (take (Z.to_nat valueCount) (Direct8.values r)) in
  let r := {| Direct8.impl := Direct8.impl r; Direct8.values := values |} in
  match err with
  | None =>
      let* err := consume_padding version valueCount 8 valueCount in
      mret (Some (IsDirect8 r), err)
  | Some e => mret (Some (IsDirect8 r), Some e)
  end.

(** *** Direct16, Direct32, Direct64 *)

Definition newDirect16 (valueCount : Z) : result Direct16.t :=
  result_bind (make valueCount) (fun values =>
  Ok {| Direct16.impl := newPackedIntsReaderImpl valueCount 16;
        Direct16.values := values |}).

Definition newDirect16FromInput (version valueCount : Z) : M (option PackedIntsReader * error) :=
  let* r := lift (newDirect16 valueCount) in
  let* (values, err) := range_fill ReadShort (Direct16.values r) in
  let r := {| Direct16.impl := Direct16.impl r; Direct16.values := values |} in
  match err with
  | None =>
      let* err := consume_padding version valueCount 16 (2 * valueCount) in
      mret (Some (IsDirect16 r), err)
  | Some e => mret (Some (IsDirect16 r), Some e)
  end.

Definition newDirect32 (valueCount : Z) : result Direct32.t :=
  result_bind (make valueCount) (fun values =>
  Ok {| Direct32.impl := newPackedIntsReaderImpl valueCount 32;
        Direct32.values := values |}).

Definition newDirect32FromInput (version valueCount : Z) : M (option PackedIntsReader * error) :=
  let* r := lift (newDirect32 valueCount) in
  let* (values, err) := range_fill ReadInt (Direct32.values r) in
  let r := {| Direct32.impl := Direct32.impl r; Direct32.values := values |} in
  match err with
  | None =>
      let* err := consume_padding version valueCount 32 (4 * valueCount) in
      mret (Some (IsDirect32 r), err)
  | Some e => mret (Some (IsDirect32 r), Some e)
  end.

Definition newDirect64 (valueCount : Z) : result Direct64.t :=
  result_bind (make valueCount) (fun values =>
  Ok {| Direct64.impl := newPackedIntsReaderImpl valueCount 64;
        Direct64.values := values |}).

(** No padding loop here: 64-bit values end on a word boundary. *)
Definition newDirect64FromInput (version valueCount : Z) : M (option PackedIntsReader * error) :=
  let* r := lift (newDirect64 valueCount) in
  let* (values, err) := range_fill ReadLong (Direct64.values r) in
  let r := {| Direct64.impl := Direct64.impl r; Direct64.values := values |} in
  mret (Some (IsDirect64 r), err).

(** *** Packed8ThreeBlocks *)

Definition PACKED8_THREE_BLOCKS_MAX_SIZE : Z := int32 (MaxInt32 `quot` 3).

Definition newPacked8ThreeBlocks (valueCount : Z) : result Packed8ThreeBlocks.t :=
  if PACKED8_THREE_BLOCKS_MAX_SIZE <? valueCount then Abort MaxSizeExceeded
  else
    result_bind (make (int32 (valueCount * 3))) (fun blocks =>
    Ok {| Packed8ThreeBlocks.impl := newPackedIntsReaderImpl valueCount 24;
          Packed8ThreeBlocks.blocks := blocks |}).

Definition newPacked8ThreeBlocksFromInput (version valueCount : Z)
    : M (option PackedIntsReader * error) :=
  let* r := lift (newPacked8ThreeBlocks valueCount) in
  let* (blocks, err) := ReadBytes (Packed8ThreeBlocks.blocks r) in
  let r := {| Packed8ThreeBlocks.impl := Packed8ThreeBlocks.impl r;
              Packed8ThreeBlocks.blocks := blocks |} in
  match err with
  | None =>
      let* err := consume_padding version valueCount 24 (3 * valueCount) in
      mret (Some (IsPacked8ThreeBlocks r), err)
  | Some e => mret (Some (IsPacked8ThreeBlocks r), Some e)
  end.

(** [blocks[o]<<16 | blocks[o+1]<<8 | blocks[o+2]]: the operands are [byte]
    cells and the source converts none of them, so both shifts are shifts of
    an 8-bit operand; the [int64] result is the value of the byte expression. *)
Definition Packed8ThreeBlocks_Get (r : Packed8ThreeBlocks.t) (i : Z) : result Z :=
  let blocks := Packed8ThreeBlocks.blocks r in
  let o := int32 (i * 3) in
  result_bind (index blocks o) (fun hi =>
  result_bind (index blocks (int32 (o + 1))) (fun mid =>
  result_bind (index blocks (int32 (o + 2))) (fun lo =>
  Ok (Z.lor (Z.lor (shl_unsigned 8 hi 16) (shl_unsigned 8 mid 8)) lo)))).

(** *** Packed16ThreeBlocks *)

Definition PACKED16_THREE_BLOCKS_MAX_SIZE : Z := int32 (MaxInt32 `quot` 3).

Definition newPacked16ThreeBlocks (valueCount : Z) : result Packed16ThreeBlocks.t :=
  if PACKED16_THREE_BLOCKS_MAX_SIZE <? valueCount then Abort MaxSizeExceeded
  else
    result_bind (make (int32 (valueCount * 3))) (fun blocks =>
    Ok {| Packed16ThreeBlocks.impl := newPackedIntsReaderImpl valueCount 48;
          Packed16ThreeBlocks.blocks := blocks |}).

Definition newPacked16ThreeBlocksFromInput (version valueCount : Z)
    : M (option PackedIntsReader * error) :=
  let* ans := lift (newPacked16ThreeBlocks valueCount) in
  let* (blocks, err) := range_fill ReadShort (Packed16ThreeBlocks.blocks ans) in
  let ans := {| Packed16ThreeBlocks.impl := Packed16ThreeBlocks.impl ans;
                Packed16ThreeBlocks.blocks := blocks |} in
  match err with
  | None =>
      let* err := consume_padding version valueCount 48 (3 * valueCount * 2) in
      mret (Some (IsPacked16ThreeBlocks ans), err)
  | Some e => mret (Some (IsPacked16ThreeBlocks ans), Some e)
  end.

(** *** Packed64 *)

Definition PACKED64_BLOCK_SIZE : Z := 64.

(** [uint64(^(int64(0))<<(PACKED64_BLOCK_SIZE-bitsPerValue)) >> (PACKED64_BLOCK_SIZE - bitsPerValue)],
    the shift count being a [uint32]. *)
Definition Packed64_maskRight (bitsPerValue : Z) : Z :=
  let count := uint32 (PACKED64_BLOCK_SIZE - bitsPerValue) in
  shr_unsigned 64 (uint64 (shl_signed 64 (Z.lnot (int64 0)) count)) count.

Definition newPacked64 (valueCount bitsPerValue : Z) : result Packed64.t :=
  result_bind (longCount PACKED PACKED_VERSION_CURRENT valueCount bitsPerValue) (fun longs =>
  result_bind (make longs) (fun blocks =>
  Ok {| Packed64.impl := newPackedIntsReaderImpl valueCount bitsPerValue;
        Packed64.blocks := blocks;
        Packed64.maskRight := Packed64_maskRight bitsPerValue;
        Packed64.bpvMinusBlockSize := int32 (bitsPerValue - PACKED64_BLOCK_SIZE) |})).

(** [for i := 0; i < byteCount/8; i++ { if ans.blocks[i], err = in.ReadLong(); err != nil { break } }] *)
Fixpoint read_longs (count : nat) (i : Z) (blocks : list Z) : M (list Z * error) :=
  match count with
  | O => mret (blocks, None)
  | S k =>
      let* (v, err) := ReadLong in
      let* blocks' := lift (assign blocks i v) in
      match err with
      | Some e => mret (blocks', Some e)
      | None => read_longs k (i + 1) blocks'
      end
  end.

(** The loop over the trailing bytes. Its [b, err := in.ReadByte()] declares
    an [err] of its own, so a failed read only leaves the loop; the shift
    count is the signed [5 - i*8], and Go panics on a negative count. *)
Fixpoint read_last_bytes (count : nat) (i : Z) (lastLong : Z) : M Z :=
  match count with
  | O => mret lastLong
  | S k =>
      let* (b, err) := ReadByte in
      match err with
      | Some _ => mret lastLong
      | None =>
          let s := 5 - i * 8 in
          if s <? 0 then lift (Abort NegativeShift)
          else read_last_bytes k (i + 1) (Z.lor lastLong (shl_signed 64 (int64 b) s))
      end
  end.

Definition with_blocks (ans : Packed64.t) (blocks : list Z) : Packed64.t :=
  {| Packed64.impl := Packed64.impl ans;
     Packed64.blocks := blocks;
     Packed64.maskRight := Packed64.maskRight ans;
     Packed64.bpvMinusBlockSize := Packed64.bpvMinusBlockSize ans |}.

Definition newPacked64FromInput (version valueCount bitsPerValue : Z)
    : M (option PackedIntsReader * error) :=
  let* ans := lift (newPacked64 valueCount bitsPerValue) in
  let* byteCount := lift (ByteCount PACKED version valueCount bitsPerValue) in
  let* longs := lift (longCount PACKED PACKED_VERSION_CURRENT valueCount bitsPerValue) in
  let* blocks := lift (make longs) in
  (* read as many longs as we can *)
  let* (blocks, err) := read_longs (Z.to_nat (byteCount `quot` 8)) 0 blocks in
  match err with
  | None =>
      let remaining := byteCount `rem` 8 in
      if remaining =? 0 then mret (Some (IsPacked64 (with_blocks ans blocks)), None)
      else
        (* read the last bytes *)
        let* lastLong := read_last_bytes (Z.to_nat remaining) 0 0 in
        let* blocks := lift (assign blocks (Z.of_nat (length blocks) - 1) lastLong) in
        mret (Some (IsPacked64 (with_blocks ans blocks)), None)
  | Some e => mret (Some (IsPacked64 (with_blocks ans blocks)), Some e)
  end.

(** What the specification asks of the last word: trailing byte [i]
    shifted left by [56 - 8*i], i.e. the bytes read big-endian and padded
    with zero bytes to a 64-bit word. *)
Fixpoint big_endian_padded (i : Z) (bytes : list Z) : Z :=
  match bytes with
  | [] => 0
  | b :: rest => Z.lor (shl_signed 64 b (56 - 8 * i)) (big_endian_padded (i + 1) rest)
  end.

(** ** Reader factory *)

Section Factory.

(** The single-block constructor is called by the source and declared
    elsewhere; the dispatch is stated for any such constructor. *)
Variable newPacked64SingleBlockFromInput :
  Z -> Z -> M (option PackedIntsReader * error).

Definition newPackedHeaderNoHeader
    (format : PackedFormat) (version valueCount bitsPerValue : Z)
    : M (option PackedIntsReader * error) :=
  let* _ := lift (CheckVersion version) in
  if format =? PACKED_SINGLE_BLOCK then
    newPacked64SingleBlockFromInput valueCount bitsPerValue
  else if format =? PACKED then
    if bitsPerValue =? 8 then newDirect8FromInput version valueCount
    else if bitsPerValue =? 16 then newDirect16FromInput version valueCount
    else if bitsPerValue =? 32 then newDirect32FromInput version valueCount
    else if bitsPerValue =? 64 then newDirect64FromInput version valueCount
    else if bitsPerValue =? 24 then
      if valueCount <=? PACKED8_THREE_BLOCKS_MAX_SIZE then
        newPacked8ThreeBlocksFromInput version valueCount
      else newPacked64FromInput version valueCount bitsPerValue
    else if bitsPerValue =? 48 then
      if valueCount <=? PACKED16_THREE_BLOCKS_MAX_SIZE then
        newPacked16ThreeBlocksFromInput version valueCount
      else newPacked64FromInput version valueCount bitsPerValue
    else newPacked64FromInput version valueCount bitsPerValue
  else lift (Abort (UnknownWriterFormat format)).

End Factory.

(** ** Reader with header *)

Section Header.

(** The single-block constructor, [codec.CheckHeader] (called with
    [PACKED_CODEC_NAME] and the version range) and [ReadVInt] are called by
    the source and declared elsewhere; the header reader is stated for any
    such functions. The source calls the dispatch above under the name
    [newPackedReaderNoHeader]. *)
Variable newPacked64SingleBlockFromInput :
  Z -> Z -> M (option PackedIntsReader * error).
Variable CheckHeader : M (Z * error).
Variable ReadVInt : M (Z * error).

Definition newPackedReader : M (option PackedIntsReader * error) :=
  let* (version, err) := CheckHeader in
  match err with
  | Some e => mret (None, Some e)
  | None =>
      let* (bitsPerValue, err) := ReadVInt in
      match err with
      | Some e => mret (None, Some e)
      | None =>
          let* (valueCount, err) := ReadVInt in
          match err with
          | Some e => mret (None, Some e)
          | None =>
              let* (id, err) := ReadVInt in
              match err with
              | Some e => mret (None, Some e)
              | None =>
                  let format : PackedFormat := id in
                  newPackedHeaderNoHeader newPacked64SingleBlockFromInput
                    format version valueCount bitsPerValue
              end
          end
      end
  end.

End Header.

(** ** Bulk encoders and decoders *)

Section Bulk.

(** [newBulkOperation] is called by the source and declared elsewhere. *)
Variable BulkOperation : Type.
Variable newBulkOperation : PackedFormat -> Z -> result BulkOperation.

Definition GetPackedIntsEncoder (format : PackedFormat) (version bitsPerValue : Z)
    : result BulkOperation :=
  result_bind (CheckVersion version) (fun _ =>
  newBulkOperation format bitsPerValue).

Definition GetPackedIntsDecoder (format : PackedFormat) (version bitsPerValue : Z)
    : result BulkOperation :=
  result_bind (CheckVersion version) (fun _ =>
  newBulkOperation format bitsPerValue).

End Bulk.

(** ** Growable writer *)

(** Modelled from the spec: the source gives [PackedIntsMutable] no method of
    its own and no implementation. Per the spec a Mutable is a Reader of
    [valueCount] cells of [bitsPerValue] bits with a [Set(index, value)]
    capability ([Set_] here) whose value must fit in [bitsPerValue] bits, the behaviour
    being undefined otherwise. *)
Module Mutable.

Record t : Type := { bits : Z; cells : list Z }.

Definition fits (width value : Z) : bool :=
  (0 <=? value) && (value <? 2 ^ width).

Definition alloc (valueCount width : Z) : result t :=
  result_bind (make valueCount) (fun cells =>
  Ok {| bits := width; cells := cells |}).

Definition Get (m : t) (i : Z) : result Z := index (cells m) i.

Definition Size (m : t) : Z := Z.of_nat (length (cells m)).

Definition Set_ (m : t) (i value : Z) : result t :=
  if fits (bits m) value then
    result_bind (assign (cells m) i value) (fun cells' =>
    Ok {| bits := bits m; cells := cells' |})
  else Abort ImplementationDependent.

End Mutable.

Module GrowableWriter.

Record t : Type := { current : Mutable.t }.

(** [func (w *GrowableWriter) Get(index int32) int64] *)
Definition Get (w : t) (i : Z) : result Z := Mutable.Get (current w) i.

(** [func (w *GrowableWriter) Size() int32] *)
Definition Size (w : t) : Z := Mutable.Size (current w).

(** Modelled from the spec: the least bit width, at least 1, that
    accommodates a non-negative [value]. *)
Definition bitsRequired (value : Z) : Z := Z.max 1 (Z.log2 value + 1).

(** Modelled from the spec: copy every existing value across, cell by cell
    through [Get] and [Set]. *)
Fixpoint copy (count : nat) (i : Z) (src dst : Mutable.t) : result Mutable.t :=
  match count with
  | O => Ok dst
  | S k =>
      result_bind (Mutable.Get src i) (fun v =>
      result_bind (Mutable.Set_ dst i v) (fun dst' =>
      copy k (i + 1) src dst'))
  end.

(** Modelled from the spec: [Set] is not part of the source. If the value
    fits the current backing, delegate; otherwise compute the minimum bit
    width that accommodates it, allocate a new Mutable of that width and
    the same value count, copy every existing value across, replace the
    backing, then perform the set. *)
Definition Set_ (w : t) (i value : Z) : result t :=
  if Mutable.fits (Mutable.bits (current w)) value then
    result_bind (Mutable.Set_ (current w) i value) (fun m =>
    Ok {| current := m |})
  else
    result_bind (Mutable.alloc (Size w) (bitsRequired value)) (fun next =>
    result_bind (copy (Z.to_nat (Size w)) 0 (current w) next) (fun next' =>
    result_bind (Mutable.Set_ next' i value) (fun m =>
    Ok {| current := m |}))).

End GrowableWriter.

(** ** Pool of int blocks (core/util/intBlockPool.go) *)

Module IntBlockPool.

Definition INT_BLOCK_SHIFT : Z := 13.
Definition INT_BLOCK_SIZE : Z := Z.shiftl 1 INT_BLOCK_SHIFT.

(** A [[]int] block; [None] is the [nil] slice. *)
Definition block : Type := option (list Z).

(** The [[][]int] slice of the pool: its [len] elements, and the elements of
    its array between [len] and [cap], which a slice expression can reach. *)
Record slice : Type := { elems : list block; spare : list block }.

(** [s[low:high]]: Go panics unless [0 <= low <= high <= cap(s)]. *)
Definition sub (s : slice) (low high : Z) : option (list block) :=
  if (0 <=? low) && (low <=? high) &&
     (high <=? Z.of_nat (length (elems s) + length (spare s)))
  then Some (take (Z.to_nat (high - low))
                  (drop (Z.to_nat low) (elems s ++ spare s)))
  else None.

Inductive outcome : Type :=
  | Returned
  | NotImplementedYet
  | SliceBoundsOutOfRange
  | IndexOutOfRangePanic
  | NilAllocator.

Section Allocator.

(** The [IntAllocator] interface is declared in the source without an
    implementation: the pool is stated for any allocator state and any
    [Recycle] that returns. Its field may hold the [nil] interface. *)
Variable Allocator : Type.
Variable Recycle : Allocator -> list block -> Allocator.

Record t : Type := {
  buffers : slice;
  bufferUpto : Z;
  IntUpto : Z;
  Buffer : block;
  IntOffset : Z;
  allocator : option Allocator
}.

Definition NewIntBlockPool (a : option Allocator) : t :=
  {| buffers := {| elems := []; spare := [] |};
     bufferUpto := -1;
     IntUpto := INT_BLOCK_SIZE;
     Buffer := None;
     IntOffset := - INT_BLOCK_SIZE;
     allocator := a |}.

(** [for i := offset; i <= pool.bufferUpto; i++ { pool.buffers[i] = nil }]:
    the cells before an index out of range are already [nil] when it panics. *)
Fixpoint nil_out (count i : nat) (cells : list block) : list block * bool :=
  match count with
  | O => (cells, true)
  | S c =>
      if decide (i < length cells)%nat
      then nil_out c (S i) (<[i := None]> cells)
      else (cells, false)
  end.

Definition with_cells (pool : t) (cells : list block) (a : option Allocator) : t :=
  {| buffers := {| elems := cells; spare := spare (buffers pool) |};
     bufferUpto := bufferUpto pool;
     IntUpto := IntUpto pool;
     Buffer := Buffer pool;
     IntOffset := IntOffset pool;
     allocator := a |}.

(** The block guarded by [pool.bufferUpto > 0 || !reuseFirst]. *)
Definition recycle_buffers (pool : t) (reuseFirst : bool) : outcome * t :=
  let offset := if reuseFirst then 1 else 0 in
  match sub (buffers pool) offset (int64 (1 + bufferUpto pool)) with
  | None => (SliceBoundsOutOfRange, pool)
  | Some blocks =>
      match allocator pool with
      | None => (NilAllocator, pool)
      | Some a =>
          let a' := Recycle a blocks in
          let '(cells, ok) :=
            nil_out (Z.to_nat (bufferUpto pool - offset + 1)) (Z.to_nat offset)
                    (elems (buffers pool)) in
          (if ok then Returned else IndexOutOfRangePanic,
           with_cells pool cells (Some a'))
      end
  end.

(** [Reset] mutates the pool in place, so the pool it leaves is returned
    with the outcome, also when it panics. *)
Definition Reset (pool : t) (zeroFillBuffers reuseFirst : bool) : outcome * t :=
  if bufferUpto pool =? -1 then (Returned, pool)
  else
    (* We allocated at least one buffer *)
    if zeroFillBuffers then (NotImplementedYet, pool)
    else
      let '(o, pool1) :=
        if (0 <? bufferUpto pool) || negb reuseFirst
        then recycle_buffers pool reuseFirst
        else (Returned, pool) in
      match o with
      | Returned =>
          if reuseFirst then (NotImplementedYet, pool1)
          else
            (Returned,
             {| buffers := buffers pool1;
                bufferUpto := -1;
                IntUpto := INT_BLOCK_SIZE;
                Buffer := None;
                IntOffset := - INT_BLOCK_SIZE;
                allocator := allocator pool1 |})
      | _ => (o, pool1)
      end.

End Allocator.

End IntBlockPool.

(** ** Fields of a document (core/document/field.go) *)

Module Field.

(** A call returns, or panics with a message, or dereferences [nil]. *)
Inductive outcome (A : Type) : Type :=
  | Returns (a : A)
  | Panics (msg : string)
  | NilDereference.

Arguments Returns {A} a.
Arguments Panics {A} msg.
Arguments NilDereference {A}.

(** [assert2(ok, msg)] followed by the rest of the body. *)
Definition assert2 {A : Type} (ok : bool) (msg : string) (k : outcome A) : outcome A :=
  if ok then k else Panics msg.

(** [type Store int] *)
Definition Store : Type := Z.
Definition STORE_YES : Store := 1.
Definition STORE_NO : Store := 2.

Section Externals.

(** Declared elsewhere: the values of type [float32], [float64] and
    [io.Reader] a field may hold, the token streams, [strconv.Itoa], and of
    [FieldType] the constructor [newFieldType] and the index option
    [model.INDEX_OPT_DOCS_ONLY]; the source uses the fields of [FieldType]
    listed here. *)
Variables Float32 Float64 Reader TokenStream IndexOptions : Type.
Variable Itoa : Z -> string.
Variable INDEX_OPT_DOCS_ONLY : IndexOptions.

Record FieldType : Type := {
  indexed : bool;
  stored : bool;
  _tokenized : bool;
  _omitNorms : bool;
  _indexOptions : IndexOptions;
  frozen : bool
}.

Variable newFieldType : FieldType.

(** The dynamic type of [_data interface{}], as far as the type switches of
    the source distinguish it. *)
Inductive data : Type :=
  | IsNil
  | IsString (v : string)
  | IsInt (v : Z)
  | IsInt32 (v : Z)
  | IsInt64 (v : Z)
  | IsFloat32 (v : Float32)
  | IsFloat64 (v : Float64)
  | IsBytes (v : list Z)
  | IsReader (v : Reader).

Record t : Type := {
  _type : option FieldType;
  _name : string;
  _data : data;
  _boost : Z;
  _tokenStream : option TokenStream
}.

Definition NewStringField (name value : string) (ft : option FieldType) : outcome t :=
  assert2 (negb (String.eqb name "")) "name cannot be empty" (
  assert2 (negb (String.eqb value "")) "value cannot be empty" (
  match ft with
  | None => NilDereference
  | Some ty =>
      assert2 (stored ty || indexed ty)
        "it doesn't make sense to have a field that is neither indexed nor stored" (
      Returns {| _type := ft; _name := name; _data := IsString value;
                 _boost := 1; _tokenStream := None |})
  end)).

Definition StringValue (f : t) : outcome string :=
  match _data f with
  | IsString v => Returns v
  | IsInt v => Returns (Itoa v)
  | _ => Panics "not implemented yet"
  end.

Definition ReaderValue (f : t) : option Reader :=
  match _data f with
  | IsReader v => Some v
  | _ => None
  end.

Definition Name (f : t) : string := _name f.

Definition Boost (f : t) : Z := _boost f.

Definition NumericValue (f : t) : option data :=
  match _data f with
  | IsInt32 _ | IsInt64 _ | IsFloat32 _ | IsFloat64 _ => Some (_data f)
  | _ => None
  end.

Definition BinaryValue (f : t) : option (list Z) :=
  match _data f with
  | IsBytes v => Some v
  | _ => None
  end.

Definition FieldType_of (f : t) : option FieldType := _type f.

(** Indexed, tokenized, not stored (the source sets [_tokenized = false]). *)
Definition TEXT_FIELD_TYPE_NOT_STORED : FieldType :=
  {| indexed := true;
     stored := stored newFieldType;
     _tokenized := false;
     _omitNorms := true;
     _indexOptions := INDEX_OPT_DOCS_ONLY;
     frozen := true |}.

(** Indexed, tokenized, stored (the source sets [_tokenized = false]). *)
Definition TEXT_FIELD_TYPE_STORED : FieldType :=
  {| indexed := true;
     stored := true;
     _tokenized := false;
     _omitNorms := true;
     _indexOptions := INDEX_OPT_DOCS_ONLY;
     frozen := true |}.

(** [type TextField struct { *Field }] *)
Definition NewTextField (name value : string) (store : Store) : outcome t :=
  NewStringField name value
    (({[ STORE_YES := TEXT_FIELD_TYPE_STORED;
         STORE_NO := TEXT_FIELD_TYPE_NOT_STORED ]} : gmap Z FieldType) !! store).

End Externals.

End Field.

(** ** The single-token stream of a field (core/document/field.go) *)

Module StringTokenStream.

Section Attributes.

(** Declared elsewhere: the attribute source of a token stream, with the
    effect on it of [Attributes().Clear()], of [AppendString] on its term
    attribute and of [SetOffset] on its offset attribute, and the source
    that [newStringTokenStream] starts from, with both attributes added. *)
Variable AttributeSource : Type.
Variable Clear : AttributeSource -> AttributeSource.
Variable AppendString : AttributeSource -> string -> AttributeSource.
Variable SetOffset : AttributeSource -> Z -> Z -> AttributeSource.
Variable fresh : AttributeSource.

Record t : Type := {
  attributes : AttributeSource;
  used : bool;
  value : string
}.

Definition newStringTokenStream : t :=
  {| attributes := fresh; used := false; value := "" |}.

Definition setValue (ts : t) (v : string) : t :=
  {| attributes := attributes ts; used := used ts; value := v |}.

(** [IncrementToken() (bool, error)]; the error is always [nil]. *)
Definition IncrementToken (ts : t) : bool * t :=
  if used ts then (false, ts)
  else
    let a1 := Clear (attributes ts) in
    let a2 := AppendString a1 (value ts) in
    let a3 := SetOffset a2 0 (Z.of_nat (String.length (value ts))) in
    (true, {| attributes := a3; used := true; value := value ts |}).

(** [Reset] and [Close] are those of the embedded [TokenStreamImpl]: both
    return [nil] and touch nothing. *)
Definition Reset (ts : t) : t := ts.
Definition Close (ts : t) : t := ts.

(** What a consumer can do with a stream. *)
Inductive call : Type :=
  | CallSetValue (v : string)
  | CallIncrementToken
  | CallReset
  | CallClose.

(** The stream after a sequence of calls, and the results of its
    [IncrementToken] calls in order. *)
Fixpoint run (calls : list call) (ts : t) : list bool * t :=
  match calls with
  | [] => ([], ts)
  | CallSetValue v :: rest => run rest (setValue ts v)
  | CallIncrementToken :: rest =>
      let '(more, ts') := IncrementToken ts in
      let '(results, ts'') := run rest ts' in
      (more :: results, ts'')
  | CallReset :: rest => run rest (Reset ts)
  | CallClose :: rest => run rest (Close ts)
  end.

End Attributes.

End StringTokenStream.

(** ** Vocabulary of the statements *)

(** [c] performs [k] byte reads, stopping at the first failure, and returns
    the error of that failure. *)
Definition reads {A : Type} (k : nat) (c : M (A * error)) : Prop :=
  forall s, exists a, c s = Ok ((a, first_failure k s), advance k s).

(** What a constructor for the width [bits] does on the input [s]: it
    returns a reader of [n] values together with the error of the first
    failed read among the [ByteCount] byte reads of the value and padding
    phases ([nil] when none fails), and reads nothing past that failure. *)
Definition constructs (bits : Z)
    (ctor : Z -> Z -> M (option PackedIntsReader * error))
    (version n : Z) (s : DataInput) : Prop :=
  exists bc r,
    ByteCount PACKED version n bits = Ok bc /\
    ctor version n s =
      Ok ((Some r, first_failure (Z.to_nat bc) s), advance (Z.to_nat bc) s) /\
    reader_Size r = n.

(** The six fixed-width constructors, with the width each one is built for. *)
Definition direct_readers : list (Z * (Z -> Z -> M (option PackedIntsReader * error))) :=
  [ (8, newDirect8FromInput); (16, newDirect16FromInput);
    (32, newDirect32FromInput); (64, newDirect64FromInput) ].

Definition three_blocks_readers : list (Z * (Z -> Z -> M (option PackedIntsReader * error))) :=
  [ (24, newPacked8ThreeBlocksFromInput); (48, newPacked16ThreeBlocksFromInput) ].

(** "No partial reader is returned": when the call comes back with an
    error, it comes back with no reader. *)
Definition no_partial_reader
    (ctor : Z -> Z -> M (option PackedIntsReader * error))
    (version n : Z) (s : DataInput) : Prop :=
  forall r err rest,
    ctor version n s = Ok ((r, err), rest) -> err <> None -> r = None.

(** Big-endian value of a run of bytes, accumulated onto [acc]. *)
Definition be_value (bs : list Z) (acc : Z) : Z :=
  fold_left (fun a b => a * 256 + uint8 b) bs acc.

(** [count] cells of [w] bytes each, read big-endian off [bs] and converted
    by [conv] to the cell type. *)
Fixpoint be_cells (w count : nat) (conv : Z -> Z) (bs : list Z) : list Z :=
  match count with
  | O => []
  | S c => conv (be_value (take w bs) 0) :: be_cells w c conv (drop w bs)
  end.

(** [read] takes [w] bytes and returns their big-endian value converted by
    [conv]. *)
Definition decodes (w : nat) (conv : Z -> Z) (read : M (Z * error)) : Prop :=
  forall bs rest, length bs = w ->
    read (map Byte bs ++ rest) = Ok ((conv (be_value bs 0), None), rest).

(** [c] never panics with ["MAX_SIZE exceeded"]. *)
Definition within_max_size {A : Type} (c : M A) : Prop :=
  forall s, c s <> Abort MaxSizeExceeded.

(** * Properties *)

(** ** Arithmetic of the byte count *)

Section CeilQuot.

Variable d : Z.
Hypothesis d_pos : 0 < d.

Lemma ceil_quot_bounds (x : Z) :
  d * (ceil_quot x d - 1) < x <= d * ceil_quot x d.
Proof using d_pos.
  unfold ceil_quot.
  pose proof (Z.div_mod (- x) d ltac:(lia)) as E.
  pose proof (Z.mod_pos_bound (- x) d d_pos) as B.
  nia.
Qed.

Lemma ceil_quot_unique (x c : Z) :
  d * (c - 1) < x <= d * c -> ceil_quot x d = c.
Proof using d_pos.
  intros Hc. pose proof (ceil_quot_bounds x) as Hq. nia.
Qed.

Lemma ceil_quot_mono (x y : Z) :
  x <= y -> ceil_quot x d <= ceil_quot y d.
Proof using d_pos.
  intros Hxy.
  pose proof (ceil_quot_bounds x) as Hx.
  pose proof (ceil_quot_bounds y) as Hy.
  nia.
Qed.

Lemma ceil_quot_nonneg (x : Z) : 0 <= x -> 0 <= ceil_quot x d.
Proof using d_pos.
  intros Hx. pose proof (ceil_quot_bounds x) as Hq. nia.
Qed.

Lemma ceil_quot_le (x : Z) : 0 <= x -> ceil_quot x d <= x.
Proof using d_pos.
  intros Hx. pose proof (ceil_quot_bounds x) as Hq. nia.
Qed.

End CeilQuot.

Lemma float64_exact (x : Z) : Z.abs x < 2 ^ 53 -> float64 x = x.
Proof.
  intros Hx. unfold float64. cbv zeta.
  destruct (Z.ltb_spec (Z.abs x) (2 ^ 53)); [reflexivity | lia].
Qed.

(** The product the byte count is computed from is exact in double
    precision for every value count of type [int32] and width up to 64. *)
Lemma packed_bits_exact (n b : Z) :
  0 <= n < 2 ^ 31 -> 1 <= b <= 64 ->
  float64 (float64 n * float64 b) = n * b /\ 0 <= n * b < 2 ^ 37.
Proof.
  intros Hn Hb.
  assert (Hnb : 0 <= n * b < 2 ^ 37) by nia.
  rewrite (float64_exact n), (float64_exact b), (float64_exact (n * b)) by lia.
  auto.
Qed.

Lemma int64_small (x : Z) : - 2 ^ 63 <= x < 2 ^ 63 -> int64 x = x.
Proof.
  intros Hx. unfold int64, wrap_signed.
  change (64 - 1) with 63.
  rewrite Z.mod_small by lia. lia.
Qed.

Lemma int32_small (x : Z) : - 2 ^ 31 <= x < 2 ^ 31 -> int32 x = x.
Proof.
  intros Hx. unfold int32, wrap_signed.
  change (32 - 1) with 31.
  rewrite Z.mod_small by lia. lia.
Qed.

(** Every call on [PACKED] returns at the first level. *)
Lemma ByteCount_at_PACKED (depth : nat) (version n b : Z) :
  ByteCount_at (S depth) PACKED version n b = ByteCount PACKED version n b.
Proof. reflexivity. Qed.

(** A format other than the two known ones exhausts every depth. *)
Lemma ByteCount_at_unknown (f : PackedFormat) (version n b : Z) :
  f <> PACKED -> f <> PACKED_SINGLE_BLOCK ->
  forall depth,
    ByteCount_at depth f version n b = Abort StackExhausted /\
    longCount_at depth f version n b = Abort StackExhausted.
Proof.
  intros Hp Hs.
  assert (Ep : (f =? PACKED) = false) by (apply Z.eqb_neq; exact Hp).
  assert (Es : (f =? PACKED_SINGLE_BLOCK) = false) by (apply Z.eqb_neq; exact Hs).
  induction depth as [|depth [IHb IHl]]; [split; reflexivity|].
  split; cbn [ByteCount_at longCount_at]; rewrite ?Ep, ?Es.
  - rewrite IHl. reflexivity.
  - rewrite IHb. reflexivity.
Qed.

(** For the two known formats a deeper stack changes nothing. *)
Lemma ByteCount_at_stable (f : PackedFormat) (version n b : Z) (depth : nat) :
  f = PACKED \/ f = PACKED_SINGLE_BLOCK ->
  ByteCount_at (2 + depth) f version n b = ByteCount f version n b /\
  longCount_at (2 + depth) f version n b = longCount f version n b.
Proof.
  intros [-> | ->]; split; reflexivity.
Qed.

Lemma ByteCount_PACKED_aligned (version n b : Z) :
  PACKED_VERSION_BYTE_ALIGNED <= version ->
  0 <= n < 2 ^ 31 -> 1 <= b <= 64 ->
  ByteCount PACKED version n b = Ok (ceil_quot (n * b) 8).
Proof.
  intros Hv Hn Hb.
  unfold ByteCount. cbn [ByteCount_at].
  change (PACKED =? PACKED) with true. cbv iota.
  destruct (Z.ltb_spec version PACKED_VERSION_BYTE_ALIGNED) as [Hlt|_]; [lia|].
  destruct (packed_bits_exact n b Hn Hb) as [-> _]. reflexivity.
Qed.

Lemma ByteCount_PACKED_legacy (version n b : Z) :
  version < PACKED_VERSION_BYTE_ALIGNED ->
  0 <= n < 2 ^ 31 -> 1 <= b <= 64 ->
  ByteCount PACKED version n b = Ok (8 * ceil_quot (n * b) 64).
Proof.
  intros Hv Hn Hb.
  unfold ByteCount. cbn [ByteCount_at].
  change (PACKED =? PACKED) with true. cbv iota.
  destruct (Z.ltb_spec version PACKED_VERSION_BYTE_ALIGNED) as [_|Hge]; [|lia].
  destruct (packed_bits_exact n b Hn Hb) as [-> Hnb].
  pose proof (ceil_quot_nonneg 64 ltac:(lia) (n * b) ltac:(lia)).
  pose proof (ceil_quot_le 64 ltac:(lia) (n * b) ltac:(lia)).
  rewrite int64_small by lia. reflexivity.
Qed.

(** C4. For a value count [n >= 0] of type [int32] and a width [b] in
    [1, 64], [ByteCount] on [PACKED] returns the ceiling of [n*b/8] from
    [PACKED_VERSION_BYTE_ALIGNED] on, and 8 times the ceiling of [n*b/64]
    (hence a multiple of 8) for an older version. The ceiling [c] of [x/d]
    is stated as [d*(c-1) < x <= d*c]. *)
Theorem ByteCount_PACKED_rounding (version n b : Z) :
  0 <= n < 2 ^ 31 -> 1 <= b <= 64 ->
  (PACKED_VERSION_BYTE_ALIGNED <= version ->
     exists r, ByteCount PACKED version n b = Ok r /\
               8 * (r - 1) < n * b <= 8 * r) /\
  (version < PACKED_VERSION_BYTE_ALIGNED ->
     exists q, ByteCount PACKED version n b = Ok (8 * q) /\
               64 * (q - 1) < n * b <= 64 * q /\
               (8 * q) mod 8 = 0).
Proof.
  intros Hn Hb. split; intros Hv.
  - exists (ceil_quot (n * b) 8). split.
    + apply ByteCount_PACKED_aligned; assumption.
    + apply ceil_quot_bounds. lia.
  - exists (ceil_quot (n * b) 64). split; [|split].
    + apply ByteCount_PACKED_legacy; assumption.
    + apply ceil_quot_bounds. lia.
    + rewrite Z.mul_comm. apply Z_mod_mult.
Qed.

Lemma ByteCount_PACKED_rounding_witness :
  (exists r, ByteCount PACKED 1 3 3 = Ok r /\ 8 * (r - 1) < 3 * 3 <= 8 * r) /\
  (exists q, ByteCount PACKED 0 3 3 = Ok (8 * q) /\
             64 * (q - 1) < 3 * 3 <= 64 * q /\ (8 * q) mod 8 = 0).
Proof.
  split.
  - apply (ByteCount_PACKED_rounding 1 3 3); unfold PACKED_VERSION_BYTE_ALIGNED; lia.
  - apply (ByteCount_PACKED_rounding 0 3 3); unfold PACKED_VERSION_BYTE_ALIGNED; lia.
Defined.

(** C9. For a supported version, [ByteCount] on [PACKED] is non-decreasing
    in the value count for a fixed width in [1, 64], and non-decreasing in
    the width for a fixed value count. *)
Theorem ByteCount_PACKED_monotone (version : Z) :
  supported_version version ->
  (forall b n1 n2, 1 <= b <= 64 -> 0 <= n1 <= n2 -> n2 < 2 ^ 31 ->
     exists r1 r2, ByteCount PACKED version n1 b = Ok r1 /\
                   ByteCount PACKED version n2 b = Ok r2 /\ r1 <= r2) /\
  (forall n b1 b2, 0 <= n < 2 ^ 31 -> 1 <= b1 <= b2 -> b2 <= 64 ->
     exists r1 r2, ByteCount PACKED version n b1 = Ok r1 /\
                   ByteCount PACKED version n b2 = Ok r2 /\ r1 <= r2).
Proof.
  intros _.
  assert (mono : forall n1 b1 n2 b2,
             0 <= n1 < 2 ^ 31 -> 0 <= n2 < 2 ^ 31 ->
             1 <= b1 <= 64 -> 1 <= b2 <= 64 -> n1 * b1 <= n2 * b2 ->
             exists r1 r2, ByteCount PACKED version n1 b1 = Ok r1 /\
                           ByteCount PACKED version n2 b2 = Ok r2 /\ r1 <= r2).
  { intros n1 b1 n2 b2 Hn1 Hn2 Hb1 Hb2 Hle.
    destruct (Z_lt_le_dec version PACKED_VERSION_BYTE_ALIGNED) as [Hv|Hv].
    - exists (8 * ceil_quot (n1 * b1) 64), (8 * ceil_quot (n2 * b2) 64).
      rewrite !ByteCount_PACKED_legacy by assumption.
      pose proof (ceil_quot_mono 64 ltac:(lia) _ _ Hle). split; [|split]; auto; lia.
    - exists (ceil_quot (n1 * b1) 8), (ceil_quot (n2 * b2) 8).
      rewrite !ByteCount_PACKED_aligned by assumption.
      pose proof (ceil_quot_mono 8 ltac:(lia) _ _ Hle). split; [|split]; auto. }
  split.
  - intros b n1 n2 Hb Hn Hn2. apply mono; try lia. nia.
  - intros n b1 b2 Hn Hb Hb2. apply mono; try lia. nia.
Qed.

Lemma ByteCount_PACKED_monotone_witness :
  supported_version 0 /\
  (exists r1 r2, ByteCount PACKED 0 5 7 = Ok r1 /\
                 ByteCount PACKED 0 17 7 = Ok r2 /\ r1 <= r2) /\
  (exists r1 r2, ByteCount PACKED 0 17 7 = Ok r1 /\
                 ByteCount PACKED 0 17 9 = Ok r2 /\ r1 <= r2).
Proof.
  assert (Hv : supported_version 0) by (vm_compute; split; discriminate).
  split; [exact Hv|].
  destruct (ByteCount_PACKED_monotone 0 Hv) as [Hn Hb].
  split.
  - apply (Hn 7 5 17); lia.
  - apply (Hb 17 7 9); lia.
Defined.

(** ** Version check *)

Lemma CheckVersion_supported (version : Z) :
  supported_version version -> CheckVersion version = Ok tt.
Proof.
  unfold supported_version, CheckVersion. intros [Hlo Hhi].
  destruct (Z.ltb_spec version PACKED_VERSION_START); [lia|].
  destruct (Z.ltb_spec PACKED_VERSION_CURRENT version); [lia|].
  reflexivity.
Qed.

Lemma CheckVersion_unsupported (version : Z) :
  ~ supported_version version ->
  exists p, CheckVersion version = Abort p /\
            (p = VersionTooOld PACKED_VERSION_START version \/
             p = VersionTooNew PACKED_VERSION_CURRENT version).
Proof.
  unfold supported_version, CheckVersion. intros Hv.
  destruct (Z.ltb_spec version PACKED_VERSION_START); [eauto|].
  destruct (Z.ltb_spec PACKED_VERSION_CURRENT version); [eauto|].
  lia.
Qed.

(** C5. [CheckVersion] panics exactly when the version is below
    [PACKED_VERSION_START] or above [PACKED_VERSION_CURRENT]: it panics just
    below the oldest and just above the newest version, and returns for
    every version between the two. *)
Theorem CheckVersion_rejects_exactly (version : Z) :
  (aborts (CheckVersion version) <->
     version < PACKED_VERSION_START \/ PACKED_VERSION_CURRENT < version) /\
  CheckVersion (PACKED_VERSION_START - 1) =
    Abort (VersionTooOld PACKED_VERSION_START (PACKED_VERSION_START - 1)) /\
  CheckVersion (PACKED_VERSION_CURRENT + 1) =
    Abort (VersionTooNew PACKED_VERSION_CURRENT (PACKED_VERSION_CURRENT + 1)) /\
  (PACKED_VERSION_START <= version <= PACKED_VERSION_CURRENT ->
     CheckVersion version = Ok tt).
Proof.
  split; [|split; [reflexivity|split; [reflexivity|apply CheckVersion_supported]]].
  split.
  - intros [p Hp].
    destruct (Z_lt_le_dec version PACKED_VERSION_START) as [|Hlo]; [auto|].
    destruct (Z_lt_le_dec PACKED_VERSION_CURRENT version) as [|Hhi]; [auto|].
    rewrite CheckVersion_supported in Hp by (split; assumption).
    discriminate Hp.
  - intros Hv.
    destruct (CheckVersion_unsupported version) as (p & Hp & _).
    + unfold supported_version. lia.
    + exists p. exact Hp.
Qed.

Lemma CheckVersion_rejects_exactly_witness :
  CheckVersion 1 = Ok tt.
Proof.
  apply (CheckVersion_rejects_exactly 1).
  unfold PACKED_VERSION_START, PACKED_VERSION_CURRENT, PACKED_VERSION_BYTE_ALIGNED.
  lia.
Defined.

(** ** The right mask of Packed64 *)

Lemma shift_count_in_range (b : Z) :
  1 <= b <= 64 -> uint32 (PACKED64_BLOCK_SIZE - b) = 64 - b.
Proof.
  intros Hb. unfold uint32, wrap_unsigned, PACKED64_BLOCK_SIZE.
  apply Z.mod_small. lia.
Qed.

Lemma pow2_split_64 (c : Z) : 0 <= c <= 63 -> 2 ^ 64 = 2 ^ c * 2 ^ (64 - c).
Proof.
  intros Hc. rewrite <- Z.pow_add_r by lia. f_equal. lia.
Qed.

Lemma all_ones_shifted_left (c : Z) :
  0 <= c <= 63 ->
  uint64 (shl_signed 64 (Z.lnot (int64 0)) c) = 2 ^ 64 - 2 ^ c.
Proof.
  intros Hc.
  assert (Hpow : 0 < 2 ^ c <= 2 ^ 63).
  { split; [apply Z.pow_pos_nonneg; lia | apply Z.pow_le_mono_r; lia]. }
  unfold shl_signed.
  destruct (Z.leb_spec 64 c); [lia|].
  change (Z.lnot (int64 0)) with (-1).
  rewrite Z.shiftl_mul_pow2 by lia.
  fold (int64 (-1 * 2 ^ c)). rewrite int64_small by lia.
  unfold uint64, wrap_unsigned.
  replace (-1 * 2 ^ c) with (2 ^ 64 - 2 ^ c + (-1) * 2 ^ 64) by lia.
  rewrite Z_mod_plus_full. apply Z.mod_small. lia.
Qed.

Lemma Packed64_maskRight_value (b : Z) :
  1 <= b <= 64 -> Packed64_maskRight b = 2 ^ b - 1.
Proof.
  intros Hb. unfold Packed64_maskRight. cbv zeta.
  rewrite shift_count_in_range by assumption.
  rewrite all_ones_shifted_left by lia.
  unfold shr_unsigned.
  destruct (Z.leb_spec 64 (64 - b)); [lia|].
  rewrite Z.shiftr_div_pow2 by lia.
  rewrite (pow2_split_64 (64 - b)) by lia.
  replace (64 - (64 - b)) with b by lia.
  assert (Hpos : 0 < 2 ^ (64 - b)) by (apply Z.pow_pos_nonneg; lia).
  replace (2 ^ (64 - b) * 2 ^ b - 2 ^ (64 - b)) with ((2 ^ b - 1) * 2 ^ (64 - b)) by lia.
  apply Z.div_mul. lia.
Qed.

(** C8. For a width [b] in [1, 64] the right mask that [newPacked64]
    stores, [uint64(^int64(0) << (64-b)) >> (64-b)] with a logical right
    shift, is [2^b - 1]: and-ing a word with it keeps exactly the low [b]
    bits. *)
Theorem newPacked64_maskRight (b : Z) :
  1 <= b <= 64 ->
  Packed64_maskRight b = 2 ^ b - 1 /\
  (forall n p, newPacked64 n b = Ok p -> Packed64.maskRight p = 2 ^ b - 1) /\
  (forall x, Z.land x (Packed64_maskRight b) = x mod 2 ^ b).
Proof.
  intros Hb. pose proof (Packed64_maskRight_value b Hb) as E.
  split; [exact E|split].
  - intros n p. unfold newPacked64.
    destruct (longCount PACKED PACKED_VERSION_CURRENT n b) as [longs|]; [|discriminate].
    cbn [result_bind].
    destruct (make longs) as [blocks|]; [|discriminate].
    cbn [result_bind]. intros [= <-]. exact E.
  - intros x. rewrite E, <- Z.land_ones by lia.
    rewrite Z.ones_equiv. reflexivity.
Qed.

Lemma newPacked64_maskRight_witness :
  1 <= 3 <= 64 /\ Packed64_maskRight 3 = 2 ^ 3 - 1 /\
  (exists p, newPacked64 4 3 = Ok p /\ Packed64.maskRight p = 7).
Proof.
  split; [lia|].
  destruct (newPacked64_maskRight 3 ltac:(lia)) as (E & Hnew & _).
  split; [exact E|].
  eexists. split; [reflexivity|]. apply (Hnew 4). reflexivity.
Defined.

(** ** Bulk encoders and decoders *)

(** C10. [GetPackedIntsEncoder] and [GetPackedIntsDecoder] check the version
    before anything is built: outside the supported range both panic with
    the version condition whatever [newBulkOperation] would do, so no object
    is produced; inside the range the check passes and the call is the call
    of [newBulkOperation]. *)
Theorem GetPackedInts_checks_version_first
    (BulkOperation : Type) (newBulkOperation : PackedFormat -> Z -> result BulkOperation)
    (format : PackedFormat) (version bits : Z) :
  (~ supported_version version ->
     exists p,
       (p = VersionTooOld PACKED_VERSION_START version \/
        p = VersionTooNew PACKED_VERSION_CURRENT version) /\
       GetPackedIntsEncoder BulkOperation newBulkOperation format version bits = Abort p /\
       GetPackedIntsDecoder BulkOperation newBulkOperation format version bits = Abort p) /\
  (supported_version version ->
     GetPackedIntsEncoder BulkOperation newBulkOperation format version bits =
       newBulkOperation format bits /\
     GetPackedIntsDecoder BulkOperation newBulkOperation format version bits =
       newBulkOperation format bits).
Proof.
  unfold GetPackedIntsEncoder, GetPackedIntsDecoder. split; intros Hv.
  - destruct (CheckVersion_unsupported version Hv) as (p & Hp & Hkind).
    exists p. rewrite Hp. auto.
  - rewrite (CheckVersion_supported version Hv). auto.
Qed.

Lemma GetPackedInts_checks_version_first_witness :
  (exists p, GetPackedIntsEncoder unit (fun _ _ => Ok tt) PACKED 2 8 = Abort p) /\
  GetPackedIntsDecoder unit (fun _ _ => Ok tt) PACKED 0 8 = Ok tt.
Proof.
  destruct (GetPackedInts_checks_version_first unit (fun _ _ => Ok tt) PACKED 2 8)
    as [Hbad _].
  destruct (GetPackedInts_checks_version_first unit (fun _ _ => Ok tt) PACKED 0 8)
    as [_ Hgood].
  split.
  - destruct Hbad as (p & _ & Hp & _).
    + vm_compute. intros [_ H]. apply H. reflexivity.
    + exists p. exact Hp.
  - apply Hgood. vm_compute. split; discriminate.
Defined.

(** ** Dispatch of the reader factory *)

(** C6. With a supported version, [newPackedHeaderNoHeader] calls the
    single-block constructor for [PACKED_SINGLE_BLOCK]; for [PACKED] it calls
    the Direct8, Direct16, Direct32 or Direct64 constructor for the widths 8,
    16, 32, 64, the Packed8ThreeBlocks constructor for width 24 and the
    Packed16ThreeBlocks constructor for width 48 when the value count is at
    most [MaxInt32/3], and the Packed64 constructor otherwise; any other
    format identifier is a panic. *)
Theorem newPackedHeaderNoHeader_dispatch
    (single : Z -> Z -> M (option PackedIntsReader * error))
    (version n b : Z) (s : DataInput) :
  supported_version version ->
  newPackedHeaderNoHeader single PACKED_SINGLE_BLOCK version n b s = single n b s /\
  newPackedHeaderNoHeader single PACKED version n 8 s = newDirect8FromInput version n s /\
  newPackedHeaderNoHeader single PACKED version n 16 s = newDirect16FromInput version n s /\
  newPackedHeaderNoHeader single PACKED version n 32 s = newDirect32FromInput version n s /\
  newPackedHeaderNoHeader single PACKED version n 64 s = newDirect64FromInput version n s /\
  (n <= MaxInt32 `quot` 3 ->
     newPackedHeaderNoHeader single PACKED version n 24 s =
       newPacked8ThreeBlocksFromInput version n s /\
     newPackedHeaderNoHeader single PACKED version n 48 s =
       newPacked16ThreeBlocksFromInput version n s) /\
  (MaxInt32 `quot` 3 < n ->
     newPackedHeaderNoHeader single PACKED version n 24 s =
       newPacked64FromInput version n 24 s /\
     newPackedHeaderNoHeader single PACKED version n 48 s =
       newPacked64FromInput version n 48 s) /\
  (b <> 8 -> b <> 16 -> b <> 32 -> b <> 64 -> b <> 24 -> b <> 48 ->
     newPackedHeaderNoHeader single PACKED version n b s =
       newPacked64FromInput version n b s) /\
  (forall format, format <> PACKED -> format <> PACKED_SINGLE_BLOCK ->
     newPackedHeaderNoHeader single format version n b s =
       Abort (UnknownWriterFormat format)).
Proof.
  intros Hv.
  assert (Hcheck : forall (k : M (option PackedIntsReader * error)),
             mbind (lift (CheckVersion version)) (fun _ => k) s = k s).
  { intros k. unfold mbind, lift. rewrite (CheckVersion_supported version Hv).
    reflexivity. }
  unfold newPackedHeaderNoHeader.
  repeat split; try (rewrite Hcheck; reflexivity).
  - rewrite Hcheck. change (24 =? 8) with false. cbn [Z.eqb Pos.eqb].
    unfold PACKED8_THREE_BLOCKS_MAX_SIZE. rewrite int32_small by (vm_compute; split; [discriminate|reflexivity]).
    destruct (Z.leb_spec n (MaxInt32 `quot` 3)); [reflexivity|lia].
  - rewrite Hcheck. cbn [Z.eqb Pos.eqb].
    unfold PACKED16_THREE_BLOCKS_MAX_SIZE. rewrite int32_small by (vm_compute; split; [discriminate|reflexivity]).
    destruct (Z.leb_spec n (MaxInt32 `quot` 3)); [reflexivity|lia].
  - rewrite Hcheck. cbn [Z.eqb Pos.eqb].
    unfold PACKED8_THREE_BLOCKS_MAX_SIZE. rewrite int32_small by (vm_compute; split; [discriminate|reflexivity]).
    destruct (Z.leb_spec n (MaxInt32 `quot` 3)); [lia|reflexivity].
  - rewrite Hcheck. cbn [Z.eqb Pos.eqb].
    unfold PACKED16_THREE_BLOCKS_MAX_SIZE. rewrite int32_small by (vm_compute; split; [discriminate|reflexivity]).
    destruct (Z.leb_spec n (MaxInt32 `quot` 3)); [lia|reflexivity].
  - intros H8 H16 H32 H64 H24 H48. rewrite Hcheck.
    change (PACKED =? PACKED_SINGLE_BLOCK) with false.
    change (PACKED =? PACKED) with true. cbv iota.
    repeat match goal with
           | |- context [b =? ?k] => destruct (Z.eqb_spec b k); [contradiction|]
           end.
    reflexivity.
  - intros format Hp Hs. rewrite Hcheck.
    destruct (Z.eqb_spec format PACKED_SINGLE_BLOCK); [contradiction|].
    destruct (Z.eqb_spec format PACKED); [contradiction|].
    reflexivity.
Qed.

Lemma newPackedHeaderNoHeader_dispatch_witness :
  supported_version 1 /\
  newPackedHeaderNoHeader (fun _ _ => mret (None, None)) PACKED 1 2 8 [Byte 5; Byte 6] =
    newDirect8FromInput 1 2 [Byte 5; Byte 6] /\
  newPackedHeaderNoHeader (fun _ _ => mret (None, None)) 7 1 2 8 [Byte 5; Byte 6] =
    Abort (UnknownWriterFormat 7).
Proof.
  assert (Hv : supported_version 1) by (vm_compute; split; discriminate).
  split; [exact Hv|].
  destruct (newPackedHeaderNoHeader_dispatch
              (fun _ _ => mret (None, None)) 1 2 8 [Byte 5; Byte 6] Hv)
    as (_ & H8 & _ & _ & _ & _ & _ & _ & Hunknown).
  split; [exact H8|].
  apply Hunknown; discriminate.
Defined.

(** ** Reads from the input *)

Lemma mbind_ok {A B : Type} (c : M A) (k : A -> M B) (s s' : DataInput) (a : A) :
  c s = Ok (a, s') -> mbind c k s = k a s'.
Proof. intros E. unfold mbind. rewrite E. reflexivity. Qed.

Lemma mbind_lift_ok {A B : Type} (a : A) (k : A -> M B) (s : DataInput) :
  mbind (lift (Ok a)) k s = k a s.
Proof. reflexivity. Qed.

Lemma first_failure_add (a b : nat) (s : DataInput) :
  first_failure (a + b) s =
    match first_failure a s with
    | Some e => Some e
    | None => first_failure b (advance a s)
    end.
Proof.
  revert s. induction a as [|a IH]; intros s; [reflexivity|].
  cbn [Nat.add first_failure advance].
  destruct s as [|[x|e] s]; [reflexivity|apply IH|reflexivity].
Qed.

Lemma advance_add (a b : nat) (s : DataInput) :
  first_failure a s = None -> advance (a + b) s = advance b (advance a s).
Proof.
  revert s. induction a as [|a IH]; intros s; [reflexivity|].
  cbn [Nat.add first_failure advance].
  destruct s as [|[x|e] s]; [discriminate|apply IH|discriminate].
Qed.

Lemma advance_failed (a b : nat) (s : DataInput) (e : IOError) :
  first_failure a s = Some e -> advance (a + b) s = advance a s.
Proof.
  revert s. induction a as [|a IH]; intros s; [discriminate|].
  cbn [Nat.add first_failure advance].
  destruct s as [|[x|e'] s]; [reflexivity|apply IH|reflexivity].
Qed.

Lemma reads_ReadByte : reads 1 ReadByte.
Proof.
  intros [|[b|e] s]; eexists; reflexivity.
Qed.

Lemma reads_read_be (k : nat) : forall acc, reads k (read_be k acc).
Proof.
  induction k as [|k IH]; intros acc s.
  - eexists. reflexivity.
  - destruct s as [|[b|e] s].
    + eexists. reflexivity.
    + destruct (IH (acc * 256 + uint8 b) s) as [v Ev].
      exists v. cbn [read_be first_failure advance].
      erewrite mbind_ok by reflexivity. exact Ev.
    + eexists. reflexivity.
Qed.

Lemma reads_convert {A B : Type} (k : nat) (c : M (A * error)) (f : A -> B) :
  reads k c ->
  reads k (mbind c (fun x => match x with (v, err) => mret (f v, err) end)).
Proof.
  intros Hc s. destruct (Hc s) as [a Ea].
  exists (f a). erewrite mbind_ok by exact Ea. reflexivity.
Qed.

Lemma reads_ReadShort : reads 2 ReadShort.
Proof. apply reads_convert, reads_read_be. Qed.

Lemma reads_ReadInt : reads 4 ReadInt.
Proof. apply reads_convert, reads_read_be. Qed.

Lemma reads_ReadLong : reads 8 ReadLong.
Proof. apply reads_convert, reads_read_be. Qed.

Lemma skip_padding_spec (k : nat) (s : DataInput) :
  skip_padding k s = Ok (first_failure k s, advance k s).
Proof.
  revert s. induction k as [|k IH]; intros s; [reflexivity|].
  destruct s as [|[b|e] s]; [reflexivity| |reflexivity].
  cbn [skip_padding first_failure advance].
  erewrite mbind_ok by reflexivity. apply IH.
Qed.

Lemma ReadBytes_spec (buf : list Z) (s : DataInput) :
  exists buf',
    ReadBytes buf s =
      Ok ((buf', first_failure (length buf) s), advance (length buf) s) /\
    length buf' = length buf.
Proof.
  revert s. induction buf as [|old rest IH]; intros s.
  - exists []. split; reflexivity.
  - destruct s as [|[b|e] s].
    + exists (old :: rest). split; reflexivity.
    + destruct (IH s) as (rest' & E & L).
      exists (uint8 b :: rest'). split; [|cbn [length]; congruence].
      cbn [ReadBytes length first_failure advance].
      erewrite mbind_ok by reflexivity. cbv iota beta.
      erewrite mbind_ok by exact E. reflexivity.
    + exists (old :: rest). split; reflexivity.
Qed.

Lemma range_fill_spec (w : nat) (read : M (Z * error)) :
  reads w read ->
  forall (values : list Z) (s : DataInput),
  exists values',
    range_fill read values s =
      Ok ((values', first_failure (w * length values) s),
          advance (w * length values) s) /\
    length values' = length values.
Proof.
  intros Hread values.
  induction values as [|old rest IH]; intros s.
  - exists []. rewrite Nat.mul_0_r. split; reflexivity.
  - destruct (Hread s) as [v Ev].
    cbn [range_fill length].
    replace (w * S (length rest))%nat with (w + w * length rest)%nat by lia.
    erewrite mbind_ok by exact Ev. cbv iota beta.
    rewrite first_failure_add.
    destruct (first_failure w s) as [e|] eqn:Ew.
    + exists (v :: rest). rewrite (advance_failed _ _ _ e Ew).
      split; reflexivity.
    + destruct (IH (advance w s)) as (rest' & E & L).
      exists (v :: rest'). rewrite (advance_add _ _ _ Ew).
      erewrite mbind_ok by exact E.
      split; [reflexivity|cbn [length]; congruence].
Qed.

(** ** Fixed-width readers built from an input *)

Lemma make_nonneg (n : Z) :
  0 <= n -> make n = Ok (replicate (Z.to_nat n) 0).
Proof.
  intros Hn. unfold make. destruct (Z.ltb_spec n 0); [lia|reflexivity].
Qed.

(** The byte count of a width of [k] whole bytes covers the [k * n] bytes of
    the values, exactly so when the stream is byte-aligned. *)
Lemma ByteCount_PACKED_native (version n k : Z) :
  0 <= n < 2 ^ 31 -> 1 <= k <= 8 ->
  exists bc, ByteCount PACKED version n (8 * k) = Ok bc /\ k * n <= bc.
Proof.
  intros Hn Hk.
  destruct (Z_lt_le_dec version PACKED_VERSION_BYTE_ALIGNED) as [Hv|Hv].
  - rewrite ByteCount_PACKED_legacy by (assumption || lia).
    eexists. split; [reflexivity|].
    pose proof (ceil_quot_bounds 64 ltac:(lia) (n * (8 * k))). lia.
  - rewrite ByteCount_PACKED_aligned by (assumption || lia).
    eexists. split; [reflexivity|].
    pose proof (ceil_quot_bounds 8 ltac:(lia) (n * (8 * k))). lia.
Qed.

Lemma ByteCount_PACKED_64 (version n : Z) :
  0 <= n < 2 ^ 31 -> ByteCount PACKED version n 64 = Ok (8 * n).
Proof.
  intros Hn.
  destruct (Z_lt_le_dec version PACKED_VERSION_BYTE_ALIGNED) as [Hv|Hv].
  - rewrite ByteCount_PACKED_legacy by (assumption || lia).
    rewrite (ceil_quot_unique 64 ltac:(lia) (n * 64) n) by lia. reflexivity.
  - rewrite ByteCount_PACKED_aligned by (assumption || lia).
    rewrite (ceil_quot_unique 8 ltac:(lia) (n * 64) (8 * n)) by lia. reflexivity.
Qed.

Lemma value_phase_failed (k : nat) (bc : Z) (s : DataInput) (e : IOError) :
  Z.of_nat k <= bc -> first_failure k s = Some e ->
  first_failure (Z.to_nat bc) s = Some e /\
  advance (Z.to_nat bc) s = advance k s.
Proof.
  intros Hk He.
  replace (Z.to_nat bc) with (k + Z.to_nat (bc - Z.of_nat k))%nat by lia.
  rewrite first_failure_add, He, (advance_failed _ _ _ e He). auto.
Qed.

Lemma padding_phase (version n bits native bc : Z) (k : nat)
    (r : PackedIntsReader) (s : DataInput) :
  ByteCount PACKED version n bits = Ok bc ->
  Z.of_nat k = native -> native <= bc -> first_failure k s = None ->
  mbind (consume_padding version n bits native) (fun err => mret (Some r, err))
        (advance k s) =
    Ok ((Some r, first_failure (Z.to_nat bc) s), advance (Z.to_nat bc) s).
Proof.
  intros Hbc Hk Hle Hnone.
  unfold consume_padding. rewrite Hbc.
  unfold mbind at 1. rewrite mbind_lift_ok. cbv zeta.
  rewrite skip_padding_spec.
  replace (Z.to_nat bc) with (k + Z.to_nat (bc - native))%nat by lia.
  rewrite first_failure_add, Hnone, (advance_add _ _ _ Hnone).
  reflexivity.
Qed.

Ltac value_phase E :=
  erewrite mbind_ok by exact E; cbv iota beta zeta.

(** After the value phase read [k] bytes: either it failed, or the padding
    phase runs on what is left. *)
Ltac close_phases k bc Hbc Hk Hle :=
  match goal with
  | |- context [first_failure k ?s] =>
      let e := fresh "e" in
      let Hfail := fresh "Hfail" in
      destruct (first_failure k s) as [e|] eqn:Hfail;
      [ destruct (value_phase_failed k bc s e ltac:(lia) Hfail) as [-> ->];
        reflexivity
      | erewrite <- (padding_phase _ _ _ _ _ k _ s Hbc Hk Hle Hfail);
        reflexivity ]
  end.

Lemma newDirect8FromInput_constructs (version n : Z) (s : DataInput) :
  0 <= n < 2 ^ 31 -> constructs 8 newDirect8FromInput version n s.
Proof.
  intros Hn.
  destruct (ByteCount_PACKED_native version n 1 Hn ltac:(lia)) as (bc & Hbc & Hle).
  change (8 * 1) with 8 in Hbc. replace (1 * n) with n in Hle by lia.
  unfold constructs, newDirect8FromInput, newDirect8.
  rewrite make_nonneg by lia. cbn [result_bind].
  destruct (ReadBytes_spec (replicate (Z.to_nat n) 0) s) as (values & E & L).
  rewrite length_replicate in E.
  exists bc, (IsDirect8 {| Direct8.impl := newPackedIntsReaderImpl n 8;
                       Direct8.values := values |}).
  split; [exact Hbc|]. split; [|reflexivity].
  rewrite mbind_lift_ok. cbn [Direct8.values Direct8.impl].
  rewrite firstn_all2 by (rewrite length_replicate; lia).
  assert (Hk : Z.of_nat (Z.to_nat n) = n) by lia.
  value_phase E.
  close_phases (Z.to_nat n) bc Hbc Hk Hle.
Qed.

Lemma newDirect16FromInput_constructs (version n : Z) (s : DataInput) :
  0 <= n < 2 ^ 31 -> constructs 16 newDirect16FromInput version n s.
Proof.
  intros Hn.
  destruct (ByteCount_PACKED_native version n 2 Hn ltac:(lia)) as (bc & Hbc & Hle).
  change (8 * 2) with 16 in Hbc.
  unfold constructs, newDirect16FromInput, newDirect16.
  rewrite make_nonneg by lia. cbn [result_bind].
  destruct (range_fill_spec 2 ReadShort reads_ReadShort (replicate (Z.to_nat n) 0) s)
    as (values & E & L).
  rewrite length_replicate in E.
  exists bc, (IsDirect16 {| Direct16.impl := newPackedIntsReaderImpl n 16;
                       Direct16.values := values |}).
  split; [exact Hbc|]. split; [|reflexivity].
  rewrite mbind_lift_ok. cbn [Direct16.values Direct16.impl].
  assert (Hk : Z.of_nat (2 * Z.to_nat n) = 2 * n) by lia.
  value_phase E.
  close_phases (2 * Z.to_nat n)%nat bc Hbc Hk Hle.
Qed.

Lemma newDirect32FromInput_constructs (version n : Z) (s : DataInput) :
  0 <= n < 2 ^ 31 -> constructs 32 newDirect32FromInput version n s.
Proof.
  intros Hn.
  destruct (ByteCount_PACKED_native version n 4 Hn ltac:(lia)) as (bc & Hbc & Hle).
  change (8 * 4) with 32 in Hbc.
  unfold constructs, newDirect32FromInput, newDirect32.
  rewrite make_nonneg by lia. cbn [result_bind].
  destruct (range_fill_spec 4 ReadInt reads_ReadInt (replicate (Z.to_nat n) 0) s)
    as (values & E & L).
  rewrite length_replicate in E.
  exists bc, (IsDirect32 {| Direct32.impl := newPackedIntsReaderImpl n 32;
                       Direct32.values := values |}).
  split; [exact Hbc|]. split; [|reflexivity].
  rewrite mbind_lift_ok. cbn [Direct32.values Direct32.impl].
  assert (Hk : Z.of_nat (4 * Z.to_nat n) = 4 * n) by lia.
  value_phase E.
  close_phases (4 * Z.to_nat n)%nat bc Hbc Hk Hle.
Qed.

Lemma newDirect64FromInput_constructs (version n : Z) (s : DataInput) :
  0 <= n < 2 ^ 31 -> constructs 64 newDirect64FromInput version n s.
Proof.
  intros Hn.
  pose proof (ByteCount_PACKED_64 version n Hn) as Hbc.
  unfold constructs, newDirect64FromInput, newDirect64.
  rewrite make_nonneg by lia. cbn [result_bind].
  destruct (range_fill_spec 8 ReadLong reads_ReadLong (replicate (Z.to_nat n) 0) s)
    as (values & E & L).
  rewrite length_replicate in E.
  exists (8 * n), (IsDirect64 {| Direct64.impl := newPackedIntsReaderImpl n 64;
                       Direct64.values := values |}).
  split; [exact Hbc|]. split; [|reflexivity].
  rewrite mbind_lift_ok. cbn [Direct64.values Direct64.impl].
  replace (Z.to_nat (8 * n)) with (8 * Z.to_nat n)%nat by lia.
  value_phase E. reflexivity.
Qed.

Lemma three_blocks_bound :
  PACKED8_THREE_BLOCKS_MAX_SIZE = MaxInt32 `quot` 3 /\
  PACKED16_THREE_BLOCKS_MAX_SIZE = MaxInt32 `quot` 3 /\
  MaxInt32 `quot` 3 = 715827882.
Proof. repeat split; reflexivity. Qed.

Lemma newPacked8ThreeBlocksFromInput_constructs (version n : Z) (s : DataInput) :
  0 <= n <= MaxInt32 `quot` 3 ->
  constructs 24 newPacked8ThreeBlocksFromInput version n s.
Proof.
  intros Hn. destruct three_blocks_bound as (B8 & _ & Bv). rewrite Bv in Hn.
  destruct (ByteCount_PACKED_native version n 3 ltac:(lia) ltac:(lia))
    as (bc & Hbc & Hle).
  change (8 * 3) with 24 in Hbc.
  unfold constructs, newPacked8ThreeBlocksFromInput, newPacked8ThreeBlocks.
  rewrite B8, Bv.
  destruct (Z.ltb_spec 715827882 n); [lia|].
  rewrite int32_small by lia.
  rewrite make_nonneg by lia. cbn [result_bind].
  destruct (ReadBytes_spec (replicate (Z.to_nat (n * 3)) 0) s) as (blocks & E & L).
  rewrite length_replicate in E.
  exists bc, (IsPacked8ThreeBlocks {| Packed8ThreeBlocks.impl := newPackedIntsReaderImpl n 24;
                       Packed8ThreeBlocks.blocks := blocks |}).
  split; [exact Hbc|]. split; [|reflexivity].
  rewrite mbind_lift_ok. cbn [Packed8ThreeBlocks.blocks Packed8ThreeBlocks.impl].
  assert (Hk : Z.of_nat (Z.to_nat (n * 3)) = 3 * n) by lia.
  value_phase E.
  close_phases (Z.to_nat (n * 3)) bc Hbc Hk Hle.
Qed.

Lemma newPacked16ThreeBlocksFromInput_constructs (version n : Z) (s : DataInput) :
  0 <= n <= MaxInt32 `quot` 3 ->
  constructs 48 newPacked16ThreeBlocksFromInput version n s.
Proof.
  intros Hn. destruct three_blocks_bound as (_ & B16 & Bv). rewrite Bv in Hn.
  destruct (ByteCount_PACKED_native version n 6 ltac:(lia) ltac:(lia))
    as (bc & Hbc & Hle).
  change (8 * 6) with 48 in Hbc. replace (6 * n) with (3 * n * 2) in Hle by lia.
  unfold constructs, newPacked16ThreeBlocksFromInput, newPacked16ThreeBlocks.
  rewrite B16, Bv.
  destruct (Z.ltb_spec 715827882 n); [lia|].
  rewrite int32_small by lia.
  rewrite make_nonneg by lia. cbn [result_bind].
  destruct (range_fill_spec 2 ReadShort reads_ReadShort
              (replicate (Z.to_nat (n * 3)) 0) s) as (blocks & E & L).
  rewrite length_replicate in E.
  exists bc, (IsPacked16ThreeBlocks {| Packed16ThreeBlocks.impl := newPackedIntsReaderImpl n 48;
                       Packed16ThreeBlocks.blocks := blocks |}).
  split; [exact Hbc|]. split; [|reflexivity].
  rewrite mbind_lift_ok. cbn [Packed16ThreeBlocks.blocks Packed16ThreeBlocks.impl].
  assert (Hk : Z.of_nat (2 * Z.to_nat (n * 3)) = 3 * n * 2) by lia.
  value_phase E.
  close_phases (2 * Z.to_nat (n * 3))%nat bc Hbc Hk Hle.
Qed.

(** C3, as stated, fails: on an input that ends after one of two bytes,
    [newDirect8FromInput] returns the end-of-input error together with the
    half-filled reader. *)
Lemma newDirect8FromInput_returns_partial_reader :
  newDirect8FromInput 1 2 [Byte 7] =
    Ok ((Some (IsDirect8 {| Direct8.impl := newPackedIntsReaderImpl 2 8;
                            Direct8.values := [7; 0] |}),
         Some EOF), []) /\
  ~ no_partial_reader newDirect8FromInput 1 2 [Byte 7].
Proof.
  split; [reflexivity|].
  intros Hclaim.
  specialize (Hclaim _ _ _ eq_refl ltac:(discriminate)).
  discriminate Hclaim.
Qed.

(** C3, amended. For each of the six fixed-width constructors: if one of
    the byte reads of the value phase or of the padding phase fails, the
    constructor stops reading there and returns the error of that read to
    the caller, together with the reader built so far (of [n] values). *)
Theorem fixed_width_readers_surface_errors
    (version n : Z) (s : DataInput) (e : IOError) :
  0 <= n < 2 ^ 31 ->
  (forall bits ctor bc, In (bits, ctor) direct_readers ->
     ByteCount PACKED version n bits = Ok bc ->
     first_failure (Z.to_nat bc) s = Some e ->
     exists r, ctor version n s = Ok ((Some r, Some e), advance (Z.to_nat bc) s) /\
               reader_Size r = n) /\
  (n <= MaxInt32 `quot` 3 ->
   forall bits ctor bc, In (bits, ctor) three_blocks_readers ->
     ByteCount PACKED version n bits = Ok bc ->
     first_failure (Z.to_nat bc) s = Some e ->
     exists r, ctor version n s = Ok ((Some r, Some e), advance (Z.to_nat bc) s) /\
               reader_Size r = n).
Proof.
  intros Hn.
  assert (use : forall bits ctor bc,
             constructs bits ctor version n s ->
             ByteCount PACKED version n bits = Ok bc ->
             first_failure (Z.to_nat bc) s = Some e ->
             exists r, ctor version n s =
                         Ok ((Some r, Some e), advance (Z.to_nat bc) s) /\
                       reader_Size r = n).
  { intros bits ctor bc (bc' & r & Hbc' & Hctor & Hsize) Hbc Hfail.
    rewrite Hbc' in Hbc. injection Hbc as ->.
    rewrite Hfail in Hctor. exists r. auto. }
  split.
  - intros bits ctor bc Hin. apply use.
    cbn [In direct_readers] in Hin.
    destruct Hin as [[= <- <-]|[[= <- <-]|[[= <- <-]|[[= <- <-]|[]]]]].
    + apply newDirect8FromInput_constructs, Hn.
    + apply newDirect16FromInput_constructs, Hn.
    + apply newDirect32FromInput_constructs, Hn.
    + apply newDirect64FromInput_constructs, Hn.
  - intros Hmax bits ctor bc Hin. apply use.
    cbn [In three_blocks_readers] in Hin.
    destruct Hin as [[= <- <-]|[[= <- <-]|[]]].
    + apply newPacked8ThreeBlocksFromInput_constructs. lia.
    + apply newPacked16ThreeBlocksFromInput_constructs. lia.
Qed.

Lemma fixed_width_readers_surface_errors_witness :
  (exists r, newDirect16FromInput 0 3 [Byte 1; Byte 2; Byte 3; Fail (ReadFailure 5); Byte 4] =
               Ok ((Some r, Some (ReadFailure 5)), [Byte 4]) /\ reader_Size r = 3) /\
  (exists r, newPacked8ThreeBlocksFromInput 0 1 [Byte 1; Byte 2; Byte 3; Byte 0] =
               Ok ((Some r, Some EOF), []) /\ reader_Size r = 1).
Proof.
  split.
  - destruct (fixed_width_readers_surface_errors
                0 3 [Byte 1; Byte 2; Byte 3; Fail (ReadFailure 5); Byte 4]
                (ReadFailure 5) ltac:(lia)) as [Hdirect _].
    apply (Hdirect 16 newDirect16FromInput 8).
    + right. left. reflexivity.
    + reflexivity.
    + reflexivity.
  - destruct (fixed_width_readers_surface_errors
                0 1 [Byte 1; Byte 2; Byte 3; Byte 0] EOF ltac:(lia)) as [_ Hthree].
    apply (Hthree ltac:(vm_compute; discriminate) 24 newPacked8ThreeBlocksFromInput 8).
    + left. reflexivity.
    + reflexivity.
    + reflexivity.
Defined.

(** ** Packed8ThreeBlocks.Get *)

Lemma index_lookup (l : list Z) (i : nat) (v : Z) :
  l !! i = Some v -> index l (Z.of_nat i) = Ok v.
Proof.
  intros E. unfold index.
  destruct (Z.ltb_spec (Z.of_nat i) 0); [lia|].
  rewrite Nat2Z.id, E. reflexivity.
Qed.

(** C2. What [Get] computes: for a reader whose cells [3i], [3i+1], [3i+2]
    hold [hi], [mid], [lo], [Get(i)] is [lo] alone. Both shifts act on 8-bit
    operands and shift every bit out, so [hi] and [mid] contribute nothing,
    where the specification asks for [hi * 2^16 + mid * 2^8 + lo]. *)
Theorem Packed8ThreeBlocks_Get_keeps_low_cell
    (r : Packed8ThreeBlocks.t) (i : nat) (hi mid lo : Z) :
  Z.of_nat i < MaxInt32 `quot` 3 ->
  Packed8ThreeBlocks.blocks r !! (3 * i)%nat = Some hi ->
  Packed8ThreeBlocks.blocks r !! (3 * i + 1)%nat = Some mid ->
  Packed8ThreeBlocks.blocks r !! (3 * i + 2)%nat = Some lo ->
  Packed8ThreeBlocks_Get r (Z.of_nat i) = Ok lo.
Proof.
  intros Hi Hhi Hmid Hlo.
  destruct three_blocks_bound as (_ & _ & Bv). rewrite Bv in Hi.
  unfold Packed8ThreeBlocks_Get. cbv zeta.
  rewrite (int32_small (Z.of_nat i * 3)) by lia.
  rewrite (int32_small (Z.of_nat i * 3 + 1)) by lia.
  rewrite (int32_small (Z.of_nat i * 3 + 2)) by lia.
  replace (Z.of_nat i * 3 + 1) with (Z.of_nat (3 * i + 1)) by lia.
  replace (Z.of_nat i * 3 + 2) with (Z.of_nat (3 * i + 2)) by lia.
  replace (Z.of_nat i * 3) with (Z.of_nat (3 * i)) by lia.
  rewrite (index_lookup _ _ _ Hhi). cbn [result_bind].
  rewrite (index_lookup _ _ _ Hmid). cbn [result_bind].
  rewrite (index_lookup _ _ _ Hlo). cbn [result_bind].
  reflexivity.
Qed.

Lemma Packed8ThreeBlocks_Get_keeps_low_cell_witness :
  Packed8ThreeBlocks_Get
    {| Packed8ThreeBlocks.impl := newPackedIntsReaderImpl 1 24;
       Packed8ThreeBlocks.blocks := [1; 2; 3] |} (Z.of_nat 0) = Ok 3 /\
  3 <> 1 * 2 ^ 16 + 2 * 2 ^ 8 + 3.
Proof.
  split.
  - apply (Packed8ThreeBlocks_Get_keeps_low_cell _ 0%nat 1 2 3).
    + vm_compute. reflexivity.
    + reflexivity.
    + reflexivity.
    + reflexivity.
  - lia.
Defined.

(** ** Packed64 built from an input *)

(** C1. What the constructor does with trailing bytes. With one value of
    one bit and a byte-aligned version the byte count is 1: no whole word,
    one trailing byte. On the byte [0x01] the constructor stores the last
    word [1 << 5 = 32], where the specification asks for [1 << 56]. With
    nine values of eight bits it reads one whole word big-endian into the
    first block, as specified, and stores [7 << 5] for the trailing byte
    [0x07]. With two trailing bytes (five values of three bits) the second
    shift count is [5 - 8 = -3] and the call panics. *)
Theorem newPacked64FromInput_trailing_shift :
  ByteCount PACKED 1 1 1 = Ok 1 /\
  newPacked64FromInput 1 1 1 [Byte 1] =
    Ok ((Some (IsPacked64
                 {| Packed64.impl := newPackedIntsReaderImpl 1 1;
                    Packed64.blocks := [32];
                    Packed64.maskRight := 1;
                    Packed64.bpvMinusBlockSize := -63 |}),
         None), []) /\
  big_endian_padded 0 [1] = 2 ^ 56 /\
  32 <> 2 ^ 56 /\
  ByteCount PACKED 1 9 8 = Ok 9 /\
  newPacked64FromInput 1 9 8
    [Byte 1; Byte 2; Byte 3; Byte 4; Byte 5; Byte 6; Byte 7; Byte 8; Byte 7] =
    Ok ((Some (IsPacked64
                 {| Packed64.impl := newPackedIntsReaderImpl 9 8;
                    Packed64.blocks := [72623859790382856; 7 * 2 ^ 5];
                    Packed64.maskRight := 255;
                    Packed64.bpvMinusBlockSize := -56 |}),
         None), []) /\
  72623859790382856 = 1 * 2 ^ 56 + 2 * 2 ^ 48 + 3 * 2 ^ 40 + 4 * 2 ^ 32 +
                      5 * 2 ^ 24 + 6 * 2 ^ 16 + 7 * 2 ^ 8 + 8 /\
  big_endian_padded 0 [7] = 7 * 2 ^ 56 /\
  ByteCount PACKED 1 5 3 = Ok 2 /\
  newPacked64FromInput 1 5 3 [Byte 1; Byte 2] = Abort NegativeShift.
Proof.
  repeat split; try reflexivity. vm_compute. discriminate.
Qed.

(** ** Growable writer *)

Lemma assign_in_range (l : list Z) (i : nat) (v : Z) :
  (i < length l)%nat -> assign l (Z.of_nat i) v = Ok (<[i := v]> l).
Proof.
  intros Hi. unfold assign.
  destruct (Z.ltb_spec (Z.of_nat i) 0); [lia|].
  destruct (Z.leb_spec (Z.of_nat (length l)) (Z.of_nat i)); [lia|].
  rewrite Nat2Z.id. reflexivity.
Qed.

Lemma index_insert_same (l : list Z) (i : nat) (v : Z) :
  (i < length l)%nat -> index (<[i := v]> l) (Z.of_nat i) = Ok v.
Proof.
  intros Hi. apply index_lookup, list_lookup_insert_eq, Hi.
Qed.

Lemma index_insert_other (l : list Z) (i : nat) (j v : Z) :
  j <> Z.of_nat i -> index (<[i := v]> l) j = index l j.
Proof.
  intros Hj. unfold index.
  destruct (Z.ltb_spec j 0); [reflexivity|].
  rewrite list_lookup_insert_ne by lia. reflexivity.
Qed.

Lemma fits_spec (width value : Z) :
  Mutable.fits width value = true <-> 0 <= value < 2 ^ width.
Proof.
  unfold Mutable.fits. rewrite andb_true_iff, Z.leb_le, Z.ltb_lt. tauto.
Qed.

Lemma fits_bitsRequired (value : Z) :
  0 <= value ->
  Mutable.fits (GrowableWriter.bitsRequired value) value = true.
Proof.
  intros Hv. apply fits_spec. split; [exact Hv|].
  unfold GrowableWriter.bitsRequired.
  destruct (Z.eq_dec value 0) as [->|Hnz].
  - reflexivity.
  - pose proof (Z.log2_spec value ltac:(lia)) as [_ Hlt].
    pose proof (Z.log2_nonneg value).
    rewrite Z.max_r by lia.
    replace (Z.log2 value + 1) with (Z.succ (Z.log2 value)) by lia.
    exact Hlt.
Qed.

(** A value that does not fit [width] bits needs more than [width] bits. *)
Lemma bitsRequired_grows (width value : Z) :
  0 <= value -> Mutable.fits width value = false ->
  width < GrowableWriter.bitsRequired value.
Proof.
  intros Hv Hno.
  pose proof (fits_bitsRequired value Hv) as Hyes.
  apply fits_spec in Hyes.
  assert (Hk : 1 <= GrowableWriter.bitsRequired value)
    by (unfold GrowableWriter.bitsRequired; lia).
  destruct (Z_lt_le_dec width (GrowableWriter.bitsRequired value)) as [|Hge]; [assumption|].
  exfalso.
  assert (Hfit : Mutable.fits width value = true).
  { apply fits_spec. split; [exact Hv|].
    pose proof (Z.pow_le_mono_r 2 _ _ ltac:(lia) Hge). lia. }
  congruence.
Qed.

Lemma fits_wider (w k x : Z) :
  w <= k -> Mutable.fits w x = true -> Mutable.fits k x = true.
Proof.
  rewrite !fits_spec. intros Hwk [H0 Hx]. split; [exact H0|].
  pose proof (Z.pow_le_mono_r 2 w k ltac:(lia) Hwk). lia.
Qed.

(** Copying cell by cell rebuilds the cells of the source in a backing wide
    enough for each of them. *)
Lemma copy_rebuilds (src : Mutable.t) (width : Z) :
  Forall (fun x => Mutable.fits width x = true) (Mutable.cells src) ->
  forall (count i : nat),
    (i + count = length (Mutable.cells src))%nat ->
    GrowableWriter.copy count (Z.of_nat i) src
      {| Mutable.bits := width;
         Mutable.cells := take i (Mutable.cells src) ++ replicate count 0 |} =
    Ok {| Mutable.bits := width; Mutable.cells := Mutable.cells src |}.
Proof.
  intros Hfit count.
  induction count as [|count IH]; intros i Hlen.
  - cbn [GrowableWriter.copy replicate].
    rewrite app_nil_r, take_ge by lia. reflexivity.
  - destruct (lookup_lt_is_Some_2 (Mutable.cells src) i ltac:(lia)) as [x Hx].
    pose proof (Forall_lookup_1 _ _ _ _ Hfit Hx) as Hfx. cbv beta in Hfx.
    assert (Htake : length (take i (Mutable.cells src)) = i)
      by (apply length_take_le; lia).
    cbn [GrowableWriter.copy].
    unfold Mutable.Get at 1. rewrite (index_lookup _ _ _ Hx).
    cbn [result_bind].
    unfold Mutable.Set_ at 1. cbn [Mutable.bits Mutable.cells].
    rewrite Hfx.
    rewrite assign_in_range
      by (rewrite length_app, Htake, length_replicate; lia).
    cbn [result_bind].
    rewrite insert_app_r_alt by lia.
    rewrite Htake, Nat.sub_diag. cbn [replicate]. cbn [list_insert insert].
    replace (take i (Mutable.cells src) ++ x :: replicate count 0)
      with (take (S i) (Mutable.cells src) ++ replicate count 0)
      by (rewrite (take_S_r _ _ _ Hx), <- app_assoc; reflexivity).
    replace (Z.of_nat i + 1) with (Z.of_nat (S i)) by lia.
    apply IH. lia.
Qed.

(** C7. A writer whose stored values all fit its backing of width [w]
    receives [Set(i, v)] with a non-negative [v] that does not fit [w] bits.
    The writer then has a backing of the minimum width that accommodates
    [v], wider than [w]; [Get(i)] is [v], [Get(j)] is unchanged for every
    other index, and [Size()] is unchanged. *)
Theorem GrowableWriter_Set_grows (w : GrowableWriter.t) (i v : Z) :
  Forall (fun x => Mutable.fits (Mutable.bits (GrowableWriter.current w)) x = true)
         (Mutable.cells (GrowableWriter.current w)) ->
  0 <= i < GrowableWriter.Size w ->
  0 <= v ->
  Mutable.fits (Mutable.bits (GrowableWriter.current w)) v = false ->
  exists w',
    GrowableWriter.Set_ w i v = Ok w' /\
    Mutable.bits (GrowableWriter.current w') = GrowableWriter.bitsRequired v /\
    Mutable.bits (GrowableWriter.current w) < Mutable.bits (GrowableWriter.current w') /\
    GrowableWriter.Get w' i = Ok v /\
    (forall j, j <> i -> GrowableWriter.Get w' j = GrowableWriter.Get w j) /\
    GrowableWriter.Size w' = GrowableWriter.Size w.
Proof.
  destruct w as [[width cells]].
  unfold GrowableWriter.Size, Mutable.Size, GrowableWriter.Get, Mutable.Get.
  cbn [GrowableWriter.current Mutable.bits Mutable.cells].
  intros Hfit Hi Hv Hno.
  pose proof (bitsRequired_grows width v Hv Hno) as Hgrow.
  pose proof (fits_bitsRequired v Hv) as Hyes.
  set (k := GrowableWriter.bitsRequired v) in *.
  assert (Hcopy : GrowableWriter.copy (length cells) 0
                    {| Mutable.bits := width; Mutable.cells := cells |}
                    {| Mutable.bits := k; Mutable.cells := replicate (length cells) 0 |} =
                  Ok {| Mutable.bits := k; Mutable.cells := cells |}).
  { apply (copy_rebuilds {| Mutable.bits := width; Mutable.cells := cells |} k
             ltac:(cbn [Mutable.cells]; eapply Forall_impl;
                   [exact Hfit | intros x; apply fits_wider; lia])
             (length cells) 0%nat eq_refl). }
  assert (Hm : i = Z.of_nat (Z.to_nat i)) by lia.
  set (m := Z.to_nat i) in *. clearbody m. subst i.
  exists {| GrowableWriter.current :=
              {| Mutable.bits := k; Mutable.cells := <[m := v]> cells |} |}.
  cbn [GrowableWriter.current Mutable.bits Mutable.cells].
  split; [|split; [reflexivity|split; [exact Hgrow|split; [|split]]]].
  - unfold GrowableWriter.Set_, GrowableWriter.Size, Mutable.Size, Mutable.alloc.
    cbn [GrowableWriter.current Mutable.bits Mutable.cells].
    rewrite Hno, make_nonneg by lia. cbn [result_bind].
    rewrite Nat2Z.id. fold k. rewrite Hcopy. cbn [result_bind].
    unfold Mutable.Set_. cbn [Mutable.bits Mutable.cells].
    rewrite Hyes, assign_in_range by lia. reflexivity.
  - apply index_insert_same. lia.
  - intros j Hj. apply index_insert_other. lia.
  - rewrite length_insert. reflexivity.
Qed.

Lemma GrowableWriter_Set_grows_witness :
  exists w',
    GrowableWriter.Set_
      {| GrowableWriter.current := {| Mutable.bits := 2; Mutable.cells := [1; 2; 3] |} |}
      1 100 = Ok w' /\
    Mutable.bits (GrowableWriter.current w') = 7 /\
    GrowableWriter.Get w' 1 = Ok 100 /\
    GrowableWriter.Get w' 0 = Ok 1 /\
    GrowableWriter.Get w' 2 = Ok 3 /\
    GrowableWriter.Size w' = 3.
Proof.
  destruct (GrowableWriter_Set_grows
              {| GrowableWriter.current :=
                   {| Mutable.bits := 2; Mutable.cells := [1; 2; 3] |} |} 1 100)
    as (w' & Hset & Hbits & _ & Hget & Hother & Hsize).
  - repeat constructor.
  - vm_compute. split; [discriminate|reflexivity].
  - lia.
  - reflexivity.
  - exists w'. split; [exact Hset|]. split; [exact Hbits|]. split; [exact Hget|].
    split; [rewrite Hother by lia; reflexivity|].
    split; [rewrite Hother by lia; reflexivity|exact Hsize].
Defined.

(** * Further properties of the format descriptor *)

Lemma longCount_PACKED_of_ByteCount (version n b bc : Z) :
  ByteCount PACKED version n b = Ok bc -> 0 <= bc ->
  longCount PACKED version n b = Ok (ceil_quot bc 8).
Proof.
  intros Hbc Hpos.
  unfold longCount. cbn [longCount_at].
  change (PACKED =? PACKED_SINGLE_BLOCK) with false. cbv iota.
  rewrite (ByteCount_at_PACKED 0), Hbc. cbn [result_bind].
  rewrite Z.rem_mod_nonneg, Z.quot_div_nonneg by lia.
  pose proof (Z.div_mod bc 8 ltac:(lia)) as E.
  pose proof (Z.mod_pos_bound bc 8 ltac:(lia)) as B.
  destruct (Z.eqb_spec (bc mod 8) 0) as [Hz|Hnz]; f_equal; symmetry;
    apply ceil_quot_unique; lia.
Qed.

Lemma longCount_PACKED_words (version n b : Z) :
  0 <= n < 2 ^ 31 -> 1 <= b <= 64 ->
  longCount PACKED version n b = Ok (ceil_quot (n * b) 64).
Proof.
  intros Hn Hb.
  assert (Hnb : 0 <= n * b) by nia.
  pose proof (ceil_quot_bounds 64 ltac:(lia) (n * b)) as B64.
  destruct (Z_lt_le_dec version PACKED_VERSION_BYTE_ALIGNED) as [Hv|Hv].
  - rewrite (longCount_PACKED_of_ByteCount version n b _
               (ByteCount_PACKED_legacy version n b Hv Hn Hb)) by lia.
    f_equal. apply ceil_quot_unique; lia.
  - pose proof (ceil_quot_bounds 8 ltac:(lia) (n * b)) as B8.
    rewrite (longCount_PACKED_of_ByteCount version n b _
               (ByteCount_PACKED_aligned version n b Hv Hn Hb)) by lia.
    f_equal. apply ceil_quot_unique; lia.
Qed.

(** X1. A format identifier other than [PACKED] and [PACKED_SINGLE_BLOCK]
    sends [ByteCount] and [longCount] into each other without end: whatever
    the stack depth allowed, the call runs out of it; and for the two known
    formats the call never does. *)
Theorem ByteCount_unknown_format_diverges (f : PackedFormat) (version n b : Z) :
  (f <> PACKED -> f <> PACKED_SINGLE_BLOCK ->
     forall depth,
       ByteCount_at depth f version n b = Abort StackExhausted /\
       longCount_at depth f version n b = Abort StackExhausted) /\
  (f = PACKED \/ f = PACKED_SINGLE_BLOCK ->
     forall depth,
       ByteCount_at (2 + depth) f version n b <> Abort StackExhausted /\
       longCount_at (2 + depth) f version n b <> Abort StackExhausted).
Proof.
  split.
  - intros Hp Hs. apply ByteCount_at_unknown; assumption.
  - intros Hf depth.
    destruct (ByteCount_at_stable f version n b depth Hf) as [-> ->].
    destruct Hf as [-> | ->].
    + split.
      * unfold ByteCount. cbn [ByteCount_at].
        change (PACKED =? PACKED) with true. cbv iota.
        destruct (version <? PACKED_VERSION_BYTE_ALIGNED); discriminate.
      * unfold longCount. cbn [longCount_at ByteCount_at].
        change (PACKED =? PACKED_SINGLE_BLOCK) with false.
        change (PACKED =? PACKED) with true. cbv iota.
        destruct (version <? PACKED_VERSION_BYTE_ALIGNED); cbn [result_bind];
          match goal with |- context [?x =? 0] => destruct (x =? 0) end;
          discriminate.
    + assert (Hl : longCount_at 1 PACKED_SINGLE_BLOCK version n b <> Abort StackExhausted).
      { cbn [longCount_at].
        change (PACKED_SINGLE_BLOCK =? PACKED_SINGLE_BLOCK) with true. cbv iota zeta.
        destruct (b =? 0); [discriminate|].
        destruct (64 / b =? 0); discriminate. }
      split.
      * unfold ByteCount. cbn [ByteCount_at].
        change (PACKED_SINGLE_BLOCK =? PACKED) with false. cbv iota.
        destruct (longCount_at 1 PACKED_SINGLE_BLOCK version n b) as [c|p] eqn:E;
          cbn [result_bind]; [discriminate|exact Hl].
      * exact Hl.
Qed.

Lemma ByteCount_unknown_format_diverges_witness :
  ByteCount_at 5 2 1 10 8 = Abort StackExhausted /\
  ByteCount_at 5 PACKED 1 10 8 <> Abort StackExhausted.
Proof.
  destruct (ByteCount_unknown_format_diverges 2 1 10 8) as [Hbad _].
  destruct (ByteCount_unknown_format_diverges PACKED 1 10 8) as [_ Hgood].
  split.
  - apply Hbad; discriminate.
  - apply (Hgood ltac:(left; reflexivity) 3%nat).
Defined.

(** X2. On [PACKED], for a value count [n >= 0] and a width in [1, 64],
    [longCount] is the byte count rounded up to whole 8-byte words, and it is
    the same for every version: the ceiling of [n*b/64]. *)
Theorem longCount_PACKED_rounds_up (version n b : Z) :
  0 <= n < 2 ^ 31 -> 1 <= b <= 64 ->
  exists lc bc,
    longCount PACKED version n b = Ok lc /\
    ByteCount PACKED version n b = Ok bc /\
    8 * (lc - 1) < bc <= 8 * lc /\
    64 * (lc - 1) < n * b <= 64 * lc.
Proof.
  intros Hn Hb.
  assert (Hnb : 0 <= n * b) by nia.
  pose proof (ceil_quot_bounds 64 ltac:(lia) (n * b)) as B64.
  exists (ceil_quot (n * b) 64).
  rewrite longCount_PACKED_words by assumption.
  destruct (Z_lt_le_dec version PACKED_VERSION_BYTE_ALIGNED) as [Hv|Hv].
  - exists (8 * ceil_quot (n * b) 64).
    rewrite ByteCount_PACKED_legacy by assumption.
    repeat split; lia.
  - pose proof (ceil_quot_bounds 8 ltac:(lia) (n * b)) as B8.
    exists (ceil_quot (n * b) 8).
    rewrite ByteCount_PACKED_aligned by assumption.
    repeat split; lia.
Qed.

Lemma longCount_PACKED_rounds_up_witness :
  exists lc bc,
    longCount PACKED 1 5 3 = Ok lc /\ ByteCount PACKED 1 5 3 = Ok bc /\
    8 * (lc - 1) < bc <= 8 * lc /\ 64 * (lc - 1) < 5 * 3 <= 64 * lc.
Proof.
  apply (longCount_PACKED_rounds_up 1 5 3); lia.
Defined.

(** X3. For the same value count and width, a stream older than
    [PACKED_VERSION_BYTE_ALIGNED] is never shorter than a byte-aligned one
    and carries at most 7 bytes of padding more; its byte count is 8 times
    the long count. *)
Theorem ByteCount_PACKED_padding (old new n b : Z) :
  old < PACKED_VERSION_BYTE_ALIGNED -> PACKED_VERSION_BYTE_ALIGNED <= new ->
  0 <= n < 2 ^ 31 -> 1 <= b <= 64 ->
  exists legacy aligned lc,
    ByteCount PACKED old n b = Ok legacy /\
    ByteCount PACKED new n b = Ok aligned /\
    longCount PACKED new n b = Ok lc /\
    aligned <= legacy < aligned + 8 /\
    legacy = 8 * lc.
Proof.
  intros Hold Hnew Hn Hb.
  assert (Hnb : 0 <= n * b) by nia.
  pose proof (ceil_quot_bounds 64 ltac:(lia) (n * b)) as B64.
  pose proof (ceil_quot_bounds 8 ltac:(lia) (n * b)) as B8.
  exists (8 * ceil_quot (n * b) 64), (ceil_quot (n * b) 8), (ceil_quot (n * b) 64).
  rewrite ByteCount_PACKED_legacy, ByteCount_PACKED_aligned, longCount_PACKED_words
    by assumption.
  repeat split; lia.
Qed.

Lemma ByteCount_PACKED_padding_witness :
  exists legacy aligned lc,
    ByteCount PACKED 0 3 24 = Ok legacy /\ ByteCount PACKED 1 3 24 = Ok aligned /\
    longCount PACKED 1 3 24 = Ok lc /\
    aligned <= legacy < aligned + 8 /\ legacy = 8 * lc.
Proof.
  apply (ByteCount_PACKED_padding 0 1 3 24); unfold PACKED_VERSION_BYTE_ALIGNED; lia.
Defined.

(** X4. On [PACKED_SINGLE_BLOCK], for a value count [n >= 0] and a width in
    [1, 64], [longCount] is the number of words needed at [64 / b] whole
    values a word, [ByteCount] is 8 times that, and it is never less than
    what [PACKED] needs for the same values. *)
Theorem PACKED_SINGLE_BLOCK_counts (version n b : Z) :
  0 <= n < 2 ^ 31 -> 1 <= b <= 64 ->
  exists lc lp,
    longCount PACKED_SINGLE_BLOCK version n b = Ok lc /\
    ByteCount PACKED_SINGLE_BLOCK version n b = Ok (8 * lc) /\
    (64 / b) * (lc - 1) < n <= (64 / b) * lc /\
    longCount PACKED version n b = Ok lp /\
    lp <= lc.
Proof.
  intros Hn Hb.
  assert (Hvpb : 1 <= 64 / b) by (apply Z.div_le_lower_bound; lia).
  assert (Hfit : 64 / b * b <= 64)
    by (rewrite Z.mul_comm; apply Z.mul_div_le; lia).
  pose proof (ceil_quot_bounds (64 / b) ltac:(lia) n) as Bs.
  pose proof (ceil_quot_bounds 64 ltac:(lia) (n * b)) as Bp.
  assert (Hlc : longCount PACKED_SINGLE_BLOCK version n b = Ok (ceil_quot n (64 / b))).
  { unfold longCount. cbn [longCount_at].
    change (PACKED_SINGLE_BLOCK =? PACKED_SINGLE_BLOCK) with true. cbv iota zeta.
    destruct (Z.eqb_spec b 0); [lia|].
    destruct (Z.eqb_spec (64 / b) 0); [lia|]. reflexivity. }
  exists (ceil_quot n (64 / b)), (ceil_quot (n * b) 64).
  split; [exact Hlc|]. split; [|split; [exact Bs|split]].
  - unfold ByteCount. cbn [ByteCount_at longCount_at].
    change (PACKED_SINGLE_BLOCK =? PACKED) with false.
    change (PACKED_SINGLE_BLOCK =? PACKED_SINGLE_BLOCK) with true. cbv iota zeta.
    destruct (Z.eqb_spec b 0); [lia|].
    destruct (Z.eqb_spec (64 / b) 0); [lia|]. cbn [result_bind].
    rewrite int64_small; [reflexivity|]. nia.
  - apply longCount_PACKED_words; assumption.
  - nia.
Qed.

Lemma PACKED_SINGLE_BLOCK_counts_witness :
  exists lc lp,
    longCount PACKED_SINGLE_BLOCK 1 10 7 = Ok lc /\
    ByteCount PACKED_SINGLE_BLOCK 1 10 7 = Ok (8 * lc) /\
    (64 / 7) * (lc - 1) < 10 <= (64 / 7) * lc /\
    longCount PACKED 1 10 7 = Ok lp /\ lp <= lc.
Proof.
  apply (PACKED_SINGLE_BLOCK_counts 1 10 7); lia.
Defined.

(** * Further properties of the readers *)

(** X5. For a value count [n >= 0] and a width in [1, 64], [newPacked64]
    returns a reader of [n] values whose buffer is all zero and has the
    least number of 64-bit words that hold [n*b] bits, with the shift
    constant [b - 64]. *)
Theorem newPacked64_allocates (n b : Z) :
  0 <= n < 2 ^ 31 -> 1 <= b <= 64 ->
  exists words : nat,
    newPacked64 n b =
      Ok {| Packed64.impl := newPackedIntsReaderImpl n b;
            Packed64.blocks := replicate words 0;
            Packed64.maskRight := 2 ^ b - 1;
            Packed64.bpvMinusBlockSize := b - 64 |} /\
    64 * (Z.of_nat words - 1) < n * b <= 64 * Z.of_nat words.
Proof.
  intros Hn Hb.
  assert (Hnb : 0 <= n * b) by nia.
  pose proof (ceil_quot_bounds 64 ltac:(lia) (n * b)) as B64.
  exists (Z.to_nat (ceil_quot (n * b) 64)).
  split; [|lia].
  unfold newPacked64.
  rewrite longCount_PACKED_words by assumption. cbn [result_bind].
  rewrite make_nonneg by lia. cbn [result_bind].
  rewrite Packed64_maskRight_value by assumption.
  unfold PACKED64_BLOCK_SIZE. rewrite int32_small by lia.
  reflexivity.
Qed.

Lemma newPacked64_allocates_witness :
  exists words : nat,
    newPacked64 4 3 =
      Ok {| Packed64.impl := newPackedIntsReaderImpl 4 3;
            Packed64.blocks := replicate words 0;
            Packed64.maskRight := 2 ^ 3 - 1;
            Packed64.bpvMinusBlockSize := 3 - 64 |} /\
    64 * (Z.of_nat words - 1) < 4 * 3 <= 64 * Z.of_nat words.
Proof.
  apply (newPacked64_allocates 4 3); lia.
Defined.

(** ** Reads of an input that holds the bytes *)

Lemma first_failure_bytes (bs : list Z) (rest : DataInput) :
  first_failure (length bs) (map Byte bs ++ rest) = None /\
  advance (length bs) (map Byte bs ++ rest) = rest.
Proof.
  induction bs as [|b bs IH]; [split; reflexivity|exact IH].
Qed.

Lemma ReadBytes_bytes (buf bs : list Z) (rest : DataInput) :
  length bs = length buf ->
  ReadBytes buf (map Byte bs ++ rest) = Ok ((map uint8 bs, None), rest).
Proof.
  revert bs. induction buf as [|old buf IH]; intros [|b bs] Hlen;
    try discriminate; [reflexivity|].
  cbn [ReadBytes map app].
  erewrite mbind_ok by reflexivity. cbv iota beta.
  erewrite mbind_ok by (apply IH; cbn [length] in Hlen; lia).
  reflexivity.
Qed.

Lemma read_be_bytes (bs : list Z) (rest : DataInput) :
  forall acc,
    read_be (length bs) acc (map Byte bs ++ rest) =
      Ok ((be_value bs acc, None), rest).
Proof.
  induction bs as [|b bs IH]; intros acc; [reflexivity|].
  cbn [read_be length map app].
  erewrite mbind_ok by reflexivity. cbv iota beta.
  apply IH.
Qed.

Lemma decodes_convert (w : nat) (conv : Z -> Z) :
  decodes w conv
    (mbind (read_be w 0) (fun x => match x with (v, err) => mret (conv v, err) end)).
Proof.
  intros bs rest <-.
  erewrite mbind_ok by apply read_be_bytes. reflexivity.
Qed.



Lemma decodes_ReadLong : decodes 8 int64 ReadLong.
Proof. apply decodes_convert. Qed.


Lemma skip_padding_bytes (pad : list Z) (rest : DataInput) :
  skip_padding (length pad) (map Byte pad ++ rest) = Ok (None, rest).
Proof.
  rewrite skip_padding_spec.
  destruct (first_failure_bytes pad rest) as [-> ->]. reflexivity.
Qed.

Lemma consume_padding_bytes (version n bits native bc : Z)
    (pad : list Z) (rest : DataInput) :
  ByteCount PACKED version n bits = Ok bc ->
  Z.of_nat (length pad) = bc - native ->
  consume_padding version n bits native (map Byte pad ++ rest) = Ok (None, rest).
Proof.
  intros Hbc Hpad. unfold consume_padding. rewrite Hbc, mbind_lift_ok.
  cbv zeta. rewrite <- Hpad, Nat2Z.id. apply skip_padding_bytes.
Qed.

Ltac read_values lemma :=
  rewrite map_app, <- app_assoc;
  erewrite mbind_ok by (apply lemma; rewrite ?length_replicate; lia);
  cbv iota beta zeta.

Ltac read_padding Hbc :=
  erewrite mbind_ok by (eapply consume_padding_bytes; [exact Hbc|lia]);
  reflexivity.

(** X6. [newDirect8FromInput] and [newPacked8ThreeBlocksFromInput] on an
    input that holds the bytes: the cells of the reader are the first [n]
    (respectively [3n]) bytes in order, the padding up to the byte count of
    the version is consumed, no error is returned and the input is left at
    the byte after the padding. *)
Theorem byte_cell_readers_decode
    (version n : Z) (data pad : list Z) (rest : DataInput) :
  0 <= n < 2 ^ 31 ->
  (forall bc, ByteCount PACKED version n 8 = Ok bc ->
     Z.of_nat (length data) = n -> Z.of_nat (length pad) = bc - n ->
     newDirect8FromInput version n (map Byte (data ++ pad) ++ rest) =
       Ok ((Some (IsDirect8 {| Direct8.impl := newPackedIntsReaderImpl n 8;
                               Direct8.values := map uint8 data |}),
            None), rest)) /\
  (n <= MaxInt32 `quot` 3 ->
   forall bc, ByteCount PACKED version n 24 = Ok bc ->
     Z.of_nat (length data) = 3 * n -> Z.of_nat (length pad) = bc - 3 * n ->
     newPacked8ThreeBlocksFromInput version n (map Byte (data ++ pad) ++ rest) =
       Ok ((Some (IsPacked8ThreeBlocks
                    {| Packed8ThreeBlocks.impl := newPackedIntsReaderImpl n 24;
                       Packed8ThreeBlocks.blocks := map uint8 data |}),
            None), rest)).
Proof.
  intros Hn. split.
  - intros bc Hbc Hdata Hpad.
    unfold newDirect8FromInput, newDirect8.
    rewrite make_nonneg by lia. cbn [result_bind].
    rewrite mbind_lift_ok. cbn [Direct8.values Direct8.impl].
    rewrite firstn_all2 by (rewrite length_replicate; lia).
    read_values ReadBytes_bytes.
    read_padding Hbc.
  - intros Hmax bc Hbc Hdata Hpad.
    destruct three_blocks_bound as (B8 & _ & Bv). rewrite Bv in Hmax.
    unfold newPacked8ThreeBlocksFromInput, newPacked8ThreeBlocks.
    rewrite B8, Bv.
    destruct (Z.ltb_spec 715827882 n); [lia|].
    rewrite int32_small by lia.
    rewrite make_nonneg by lia. cbn [result_bind].
    rewrite mbind_lift_ok. cbn [Packed8ThreeBlocks.blocks Packed8ThreeBlocks.impl].
    read_values ReadBytes_bytes.
    read_padding Hbc.
Qed.

Lemma byte_cell_readers_decode_witness :
  newDirect8FromInput 1 4 (map Byte ([1; 255; 0; 127] ++ []) ++ [Byte 9]) =
    Ok ((Some (IsDirect8 {| Direct8.impl := newPackedIntsReaderImpl 4 8;
                            Direct8.values := map uint8 [1; 255; 0; 127] |}),
         None), [Byte 9]) /\
  newPacked8ThreeBlocksFromInput 0 1 (map Byte ([1; 2; 3] ++ [0; 0; 0; 0; 0]) ++ []) =
    Ok ((Some (IsPacked8ThreeBlocks
                 {| Packed8ThreeBlocks.impl := newPackedIntsReaderImpl 1 24;
                    Packed8ThreeBlocks.blocks := map uint8 [1; 2; 3] |}),
         None), []).
Proof.
  split.
  - destruct (byte_cell_readers_decode 1 4 [1; 255; 0; 127] [] [Byte 9] ltac:(lia))
      as [H8 _].
    apply (H8 4); reflexivity.
  - destruct (byte_cell_readers_decode 0 1 [1; 2; 3] [0; 0; 0; 0; 0] [] ltac:(lia))
      as [_ H24].
    apply (H24 ltac:(vm_compute; discriminate) 8); reflexivity.
Defined.



(** ** Packed64 built from an input, beyond the trailing shift *)

Lemma newPacked64_zeroed (n b : Z) :
  0 <= n < 2 ^ 31 -> 1 <= b <= 64 ->
  newPacked64 n b =
    Ok {| Packed64.impl := newPackedIntsReaderImpl n b;
          Packed64.blocks := replicate (Z.to_nat (ceil_quot (n * b) 64)) 0;
          Packed64.maskRight := 2 ^ b - 1;
          Packed64.bpvMinusBlockSize := b - 64 |}.
Proof.
  intros Hn Hb.
  assert (Hnb : 0 <= n * b) by nia.
  pose proof (ceil_quot_nonneg 64 ltac:(lia) (n * b) Hnb).
  unfold newPacked64.
  rewrite longCount_PACKED_words by assumption. cbn [result_bind].
  rewrite make_nonneg by lia. cbn [result_bind].
  rewrite Packed64_maskRight_value by assumption.
  unfold PACKED64_BLOCK_SIZE. rewrite int32_small by lia.
  reflexivity.
Qed.

(** The whole words fit the buffer: the byte count holds at most as many
    whole words as the buffer has, and exactly as many when it is a multiple
    of 8. *)
Lemma whole_words_fit (version n b bc : Z) :
  0 <= n < 2 ^ 31 -> 1 <= b <= 64 ->
  ByteCount PACKED version n b = Ok bc ->
  0 <= bc /\
  bc `quot` 8 = bc / 8 /\ bc `rem` 8 = bc mod 8 /\
  bc / 8 <= ceil_quot (n * b) 64 /\
  (bc mod 8 = 0 -> bc / 8 = ceil_quot (n * b) 64) /\
  (bc mod 8 <> 0 -> bc / 8 + 1 = ceil_quot (n * b) 64).
Proof.
  intros Hn Hb Hbc.
  assert (Hnb : 0 <= n * b) by nia.
  pose proof (ceil_quot_bounds 64 ltac:(lia) (n * b)) as B64.
  pose proof (ceil_quot_bounds 8 ltac:(lia) (n * b)) as B8.
  assert (Hpos : 0 <= bc /\ 8 * (ceil_quot (n * b) 64 - 1) < bc <= 8 * ceil_quot (n * b) 64).
  { destruct (Z_lt_le_dec version PACKED_VERSION_BYTE_ALIGNED) as [Hv|Hv].
    - rewrite ByteCount_PACKED_legacy in Hbc by assumption.
      injection Hbc as <-. lia.
    - rewrite ByteCount_PACKED_aligned in Hbc by assumption.
      injection Hbc as <-. lia. }
  destruct Hpos as [Hpos Hwords].
  pose proof (Z.div_mod bc 8 ltac:(lia)) as E.
  pose proof (Z.mod_pos_bound bc 8 ltac:(lia)) as B.
  rewrite Z.quot_div_nonneg, Z.rem_mod_nonneg by lia.
  repeat split; try lia.
Qed.

Lemma read_longs_bytes (count : nat) :
  forall (done todo bs : list Z) (rest : DataInput),
    length bs = (8 * count)%nat -> (count <= length todo)%nat ->
    read_longs count (Z.of_nat (length done)) (done ++ todo) (map Byte bs ++ rest) =
      Ok ((done ++ be_cells 8 count int64 bs ++ drop count todo, None), rest).
Proof.
  induction count as [|count IH]; intros done todo bs rest Hlen Htodo.
  - destruct bs; [reflexivity|discriminate].
  - destruct todo as [|t todo]; [cbn [length] in Htodo; lia|].
    assert (Hw : length (take 8 bs) = 8%nat) by (rewrite length_take; lia).
    assert (Hd : length (drop 8 bs) = (8 * count)%nat)
      by (rewrite length_drop; lia).
    cbn [read_longs be_cells].
    rewrite <- (take_drop 8 bs) at 1. rewrite map_app, <- app_assoc.
    erewrite mbind_ok by (apply decodes_ReadLong; exact Hw). cbv iota beta.
    rewrite assign_in_range by (rewrite length_app; cbn [length]; lia).
    rewrite mbind_lift_ok.
    rewrite insert_app_r_alt, Nat.sub_diag by lia. cbn [list_insert insert].
    replace (Z.of_nat (length done) + 1)
      with (Z.of_nat (length (done ++ [int64 (be_value (take 8 bs) 0)])))
      by (rewrite length_app; cbn [length]; lia).
    rewrite (cons_middle _ done todo), app_assoc.
    rewrite IH by (assumption || (cbn [length] in Htodo; lia)).
    rewrite <- app_assoc. reflexivity.
Qed.

Lemma read_longs_spec (count : nat) :
  forall (i : nat) (blocks : list Z) (s : DataInput),
    (i + count <= length blocks)%nat ->
    exists blocks',
      read_longs count (Z.of_nat i) blocks s =
        Ok ((blocks', first_failure (8 * count) s), advance (8 * count) s) /\
      length blocks' = length blocks.
Proof.
  induction count as [|count IH]; intros i blocks s Hfit.
  - exists blocks. split; reflexivity.
  - destruct (reads_ReadLong s) as [v Ev].
    cbn [read_longs].
    replace (8 * S count)%nat with (8 + 8 * count)%nat by lia.
    erewrite mbind_ok by exact Ev. cbv iota beta.
    rewrite assign_in_range by lia. rewrite mbind_lift_ok.
    rewrite first_failure_add.
    destruct (first_failure 8 s) as [e|] eqn:E8.
    + exists (<[i := v]> blocks). rewrite (advance_failed _ _ _ e E8).
      split; [reflexivity|apply length_insert].
    + destruct (IH (S i) (<[i := v]> blocks) (advance 8 s)
                  ltac:(rewrite length_insert; lia)) as (blocks' & E & L).
      exists blocks'. rewrite (advance_add _ _ _ E8).
      replace (Z.of_nat i + 1) with (Z.of_nat (S i)) by lia.
      split; [exact E|rewrite L; apply length_insert].
Qed.

Ltac enter_newPacked64FromInput Hn Hb Hbc :=
  unfold newPacked64FromInput;
  rewrite (newPacked64_zeroed _ _ Hn Hb), mbind_lift_ok;
  rewrite Hbc, mbind_lift_ok;
  rewrite (longCount_PACKED_words _ _ _ Hn Hb), mbind_lift_ok;
  rewrite make_nonneg, mbind_lift_ok
    by (apply ceil_quot_nonneg; nia).

(** X8. [newPacked64FromInput] on an input that holds the bytes, when the
    byte count is a multiple of 8 (as it always is before
    [PACKED_VERSION_BYTE_ALIGNED]): the blocks of the reader are the
    successive groups of 8 bytes read big-endian into an [int64], the buffer
    is filled exactly, no error is returned and the input is left at the
    byte after the last word. *)
Theorem newPacked64FromInput_whole_words
    (version n b bc : Z) (data : list Z) (rest : DataInput) :
  0 <= n < 2 ^ 31 -> 1 <= b <= 64 ->
  ByteCount PACKED version n b = Ok bc ->
  bc mod 8 = 0 ->
  Z.of_nat (length data) = bc ->
  newPacked64FromInput version n b (map Byte data ++ rest) =
    Ok ((Some (IsPacked64
                 {| Packed64.impl := newPackedIntsReaderImpl n b;
                    Packed64.blocks := be_cells 8 (Z.to_nat (bc / 8)) int64 data;
                    Packed64.maskRight := 2 ^ b - 1;
                    Packed64.bpvMinusBlockSize := b - 64 |}),
         None), rest) /\
  64 * (Z.of_nat (length (be_cells 8 (Z.to_nat (bc / 8)) int64 data)) - 1) < n * b
    <= 64 * Z.of_nat (length (be_cells 8 (Z.to_nat (bc / 8)) int64 data)).
Proof.
  intros Hn Hb Hbc Hmod Hdata.
  destruct (whole_words_fit version n b bc Hn Hb Hbc)
    as (Hpos & Hquot & Hrem & _ & Hexact & _).
  specialize (Hexact Hmod).
  assert (Hcells : forall (count : nat) (bs : list Z) conv,
             length (be_cells 8 count conv bs) = count).
  { induction count as [|count IH]; intros bs conv; [reflexivity|].
    cbn [be_cells length]. rewrite IH. reflexivity. }
  split.
  - enter_newPacked64FromInput Hn Hb Hbc.
    rewrite Hquot, Hrem, Hmod, <- Hexact.
    assert (Hlen : length data = (8 * Z.to_nat (bc / 8))%nat)
      by (pose proof (Z.div_mod bc 8 ltac:(lia)); lia).
    erewrite mbind_ok
      by (apply (read_longs_bytes (Z.to_nat (bc / 8)) []
                   (replicate (Z.to_nat (bc / 8)) 0) data rest);
          [exact Hlen|rewrite length_replicate; lia]).
    cbv iota beta. change (0 =? 0) with true. cbv iota.
    rewrite drop_replicate, Nat.sub_diag. cbn [replicate].
    rewrite app_nil_r. reflexivity.
  - rewrite Hcells.
    pose proof (ceil_quot_bounds 64 ltac:(lia) (n * b)) as B64.
    assert (0 <= n * b) by nia.
    pose proof (ceil_quot_nonneg 64 ltac:(lia) (n * b) ltac:(lia)).
    lia.
Qed.

Lemma newPacked64FromInput_whole_words_witness :
  newPacked64FromInput 0 5 3 (map Byte [1; 2; 3; 4; 5; 6; 7; 8] ++ [Byte 9]) =
    Ok ((Some (IsPacked64
                 {| Packed64.impl := newPackedIntsReaderImpl 5 3;
                    Packed64.blocks := [72623859790382856];
                    Packed64.maskRight := 7;
                    Packed64.bpvMinusBlockSize := -61 |}),
         None), [Byte 9]).
Proof.
  apply (newPacked64FromInput_whole_words 0 5 3 8 [1; 2; 3; 4; 5; 6; 7; 8] [Byte 9]);
    try lia; reflexivity.
Defined.

(** X9. The only errors [newPacked64FromInput] returns are those of the
    whole-word phase. A failed read among the whole words is returned
    together with the reader built so far. Once the whole words are read,
    the call returns no error whatever happens to the reads of the trailing
    bytes: the [err] they assign is local to the loop body. *)
Theorem newPacked64FromInput_errors
    (version n b bc : Z) (s : DataInput) :
  0 <= n < 2 ^ 31 -> 1 <= b <= 64 ->
  ByteCount PACKED version n b = Ok bc ->
  (forall e, first_failure (8 * Z.to_nat (bc / 8)) s = Some e ->
     exists r, newPacked64FromInput version n b s =
                 Ok ((Some r, Some e), advance (8 * Z.to_nat (bc / 8)) s) /\
               reader_Size r = n) /\
  (first_failure (8 * Z.to_nat (bc / 8)) s = None ->
   forall r err rest,
     newPacked64FromInput version n b s = Ok ((r, err), rest) -> err = None).
Proof.
  intros Hn Hb Hbc.
  destruct (whole_words_fit version n b bc Hn Hb Hbc)
    as (Hpos & Hquot & Hrem & Hfit & _ & _).
  assert (Hnb : 0 <= n * b) by nia.
  pose proof (ceil_quot_nonneg 64 ltac:(lia) (n * b) Hnb) as Hlc.
  destruct (read_longs_spec (Z.to_nat (bc / 8)) 0
              (replicate (Z.to_nat (ceil_quot (n * b) 64)) 0) s
              ltac:(rewrite length_replicate; lia)) as (blocks & E & L).
  change (Z.of_nat 0) with 0 in E.
  split.
  - intros e He. rewrite He in E.
    exists (IsPacked64
              {| Packed64.impl := newPackedIntsReaderImpl n b;
                 Packed64.blocks := blocks;
                 Packed64.maskRight := 2 ^ b - 1;
                 Packed64.bpvMinusBlockSize := b - 64 |}).
    split; [|reflexivity].
    enter_newPacked64FromInput Hn Hb Hbc.
    rewrite Hquot. erewrite mbind_ok by exact E. reflexivity.
  - intros Hnone r err rest. rewrite Hnone in E.
    enter_newPacked64FromInput Hn Hb Hbc.
    rewrite Hquot. erewrite mbind_ok by exact E. cbv iota beta.
    destruct (bc `rem` 8 =? 0); [intros [= _ <- _]; reflexivity|].
    unfold mbind, lift, mret.
    destruct (read_last_bytes _ _ _ _) as [[lastLong s']|]; [|discriminate].
    destruct (assign _ _ _) as [blocks''|]; [|discriminate].
    intros [= _ <- _]. reflexivity.
Qed.

Lemma newPacked64FromInput_errors_witness :
  (exists r, newPacked64FromInput 1 9 8 [Byte 1; Byte 2; Fail (ReadFailure 3)] =
               Ok ((Some r, Some (ReadFailure 3)), []) /\ reader_Size r = 9) /\
  (forall r err rest,
     newPacked64FromInput 1 1 1 [Fail (ReadFailure 3)] = Ok ((r, err), rest) ->
     err = None) /\
  (exists r, newPacked64FromInput 1 1 1 [Fail (ReadFailure 3)] = Ok ((Some r, None), [])).
Proof.
  destruct (newPacked64FromInput_errors 1 9 8 9
              [Byte 1; Byte 2; Fail (ReadFailure 3)]
              ltac:(lia) ltac:(lia) eq_refl) as [Hwords _].
  destruct (newPacked64FromInput_errors 1 1 1 1 [Fail (ReadFailure 3)]
              ltac:(lia) ltac:(lia) eq_refl) as [_ Htrailing].
  split; [|split].
  - apply (Hwords (ReadFailure 3)). reflexivity.
  - apply Htrailing. reflexivity.
  - exists (IsPacked64
              {| Packed64.impl := newPackedIntsReaderImpl 1 1;
                 Packed64.blocks := [0];
                 Packed64.maskRight := 1;
                 Packed64.bpvMinusBlockSize := -63 |}).
    reflexivity.
Defined.

(** ** Bounds of Packed8ThreeBlocks.Get *)

Lemma index_in_range (l : list Z) (i : Z) :
  0 <= i < Z.of_nat (length l) ->
  exists v, l !! Z.to_nat i = Some v /\ index l i = Ok v.
Proof.
  intros Hi.
  destruct (lookup_lt_is_Some_2 l (Z.to_nat i) ltac:(lia)) as [v Hv].
  exists v. split; [exact Hv|].
  rewrite <- (Z2Nat.id i) by lia. apply index_lookup, Hv.
Qed.

Lemma index_out_of_range (l : list Z) (i : Z) :
  i < 0 \/ Z.of_nat (length l) <= i -> index l i = Abort IndexOutOfRange.
Proof.
  intros Hi. unfold index.
  destruct (Z.ltb_spec i 0); [reflexivity|].
  rewrite lookup_ge_None_2 by lia. reflexivity.
Qed.

Lemma int32_range (x : Z) : - 2 ^ 31 <= int32 x < 2 ^ 31.
Proof.
  unfold int32, wrap_signed. change (32 - 1) with 31.
  pose proof (Z.mod_pos_bound (x + 2 ^ 31) (2 ^ 32) ltac:(lia)). lia.
Qed.

Lemma int32_overflow (x : Z) :
  2 ^ 31 <= x < 2 ^ 31 + 2 ^ 31 -> int32 x = x - 2 ^ 32.
Proof.
  intros Hx. unfold int32, wrap_signed. change (32 - 1) with 31.
  replace (x + 2 ^ 31) with (x - 2 ^ 31 + 1 * 2 ^ 32) by lia.
  rewrite Z_mod_plus_full, Z.mod_small by lia. lia.
Qed.

(** X10. [Packed8ThreeBlocks.Get] computes its offset [o = index * 3] in
    [int32]. It returns (the low cell, see C2) exactly when the three cells
    at the wrapped offset exist, and panics with an index out of range
    otherwise: for an index beyond [MaxInt32/3] the offset wraps around, so
    an index far out of range can return a value. *)
Theorem Packed8ThreeBlocks_Get_bounds (r : Packed8ThreeBlocks.t) (i : Z) :
  let o := int32 (i * 3) in
  let cells := Z.of_nat (length (Packed8ThreeBlocks.blocks r)) in
  (0 <= o -> o + 2 < cells -> o + 2 < 2 ^ 31 ->
     exists lo, Packed8ThreeBlocks.blocks r !! Z.to_nat (o + 2) = Some lo /\
                Packed8ThreeBlocks_Get r i = Ok lo) /\
  (o < 0 \/ cells <= o + 2 \/ 2 ^ 31 <= o + 2 ->
     Packed8ThreeBlocks_Get r i = Abort IndexOutOfRange) /\
  (- (MaxInt32 `quot` 3) <= i <= MaxInt32 `quot` 3 -> o = i * 3).
Proof.
  cbv zeta. pose proof (int32_range (i * 3)) as Ho.
  set (o := int32 (i * 3)) in *.
  set (blocks := Packed8ThreeBlocks.blocks r).
  unfold Packed8ThreeBlocks_Get. cbv zeta. fold blocks. fold o.
  split; [|split].
  - intros H0 Hlen Hwrap.
    rewrite (int32_small (o + 1)), (int32_small (o + 2)) by lia.
    destruct (index_in_range blocks o ltac:(lia)) as (hi & _ & ->).
    destruct (index_in_range blocks (o + 1) ltac:(lia)) as (mid & _ & ->).
    destruct (index_in_range blocks (o + 2) ltac:(lia)) as (lo & Hlo & ->).
    exists lo. split; [exact Hlo|reflexivity].
  - intros Hout.
    destruct (Z_lt_le_dec o 0) as [Hneg|Hnonneg];
      [rewrite index_out_of_range by lia; reflexivity|].
    destruct (Z_lt_le_dec o (Z.of_nat (length blocks))) as [Hin|Hbeyond];
      [|rewrite index_out_of_range by lia; reflexivity].
    destruct (index_in_range blocks o ltac:(lia)) as (hi & _ & ->).
    cbn [result_bind].
    destruct (Z_lt_le_dec (o + 1) (2 ^ 31)) as [H1|H1]; cycle 1.
    { rewrite (int32_overflow (o + 1)) by lia.
      rewrite index_out_of_range by lia. reflexivity. }
    rewrite (int32_small (o + 1)) by lia.
    destruct (Z_lt_le_dec (o + 1) (Z.of_nat (length blocks))) as [Hin1|Hbeyond1];
      [|rewrite index_out_of_range by lia; reflexivity].
    destruct (index_in_range blocks (o + 1) ltac:(lia)) as (mid & _ & ->).
    cbn [result_bind].
    destruct (Z_lt_le_dec (o + 2) (2 ^ 31)) as [H2|H2]; cycle 1.
    { rewrite (int32_overflow (o + 2)) by lia.
      rewrite index_out_of_range by lia. reflexivity. }
    rewrite (int32_small (o + 2)) by lia.
    rewrite index_out_of_range by lia. reflexivity.
  - intros Hi. destruct three_blocks_bound as (_ & _ & Bv). rewrite Bv in Hi.
    subst o. apply int32_small. lia.
Qed.

Lemma Packed8ThreeBlocks_Get_bounds_witness :
  Packed8ThreeBlocks_Get
    {| Packed8ThreeBlocks.impl := newPackedIntsReaderImpl 2 24;
       Packed8ThreeBlocks.blocks := [1; 2; 3; 4; 5; 6] |} 2 =
    Abort IndexOutOfRange /\
  (exists lo,
     [1; 2; 3; 4; 5; 6] !! Z.to_nat (int32 (1431655766 * 3) + 2) = Some lo /\
     Packed8ThreeBlocks_Get
       {| Packed8ThreeBlocks.impl := newPackedIntsReaderImpl 2 24;
          Packed8ThreeBlocks.blocks := [1; 2; 3; 4; 5; 6] |} 1431655766 = Ok lo).
Proof.
  split.
  - apply (Packed8ThreeBlocks_Get_bounds
             {| Packed8ThreeBlocks.impl := newPackedIntsReaderImpl 2 24;
                Packed8ThreeBlocks.blocks := [1; 2; 3; 4; 5; 6] |} 2).
    right. left. vm_compute. discriminate.
  - apply (Packed8ThreeBlocks_Get_bounds
             {| Packed8ThreeBlocks.impl := newPackedIntsReaderImpl 2 24;
                Packed8ThreeBlocks.blocks := [1; 2; 3; 4; 5; 6] |} 1431655766);
      vm_compute; (discriminate || reflexivity).
Defined.

(** * Further properties of the reader factory *)

(** X11. With a version outside the supported range,
    [newPackedHeaderNoHeader] panics with the version condition before it
    looks at the format or reads anything: whatever the format identifier,
    the counts, the input and the single-block constructor. *)
Theorem newPackedHeaderNoHeader_rejects_version
    (single : Z -> Z -> M (option PackedIntsReader * error))
    (format : PackedFormat) (version n b : Z) (s : DataInput) :
  ~ supported_version version ->
  exists p,
    (p = VersionTooOld PACKED_VERSION_START version \/
     p = VersionTooNew PACKED_VERSION_CURRENT version) /\
    newPackedHeaderNoHeader single format version n b s = Abort p.
Proof.
  intros Hv.
  destruct (CheckVersion_unsupported version Hv) as (p & Hp & Hkind).
  exists p. split; [exact Hkind|].
  unfold newPackedHeaderNoHeader, mbind, lift. rewrite Hp. reflexivity.
Qed.

Lemma newPackedHeaderNoHeader_rejects_version_witness :
  exists p,
    newPackedHeaderNoHeader (fun _ _ => mret (None, None)) 7 (-1) 4 8 [Byte 1] =
      Abort p /\
    (p = VersionTooOld PACKED_VERSION_START (-1) \/
     p = VersionTooNew PACKED_VERSION_CURRENT (-1)).
Proof.
  destruct (newPackedHeaderNoHeader_rejects_version
              (fun _ _ => mret (None, None)) 7 (-1) 4 8 [Byte 1])
    as (p & Hkind & Hp).
  - vm_compute. intros [H _]. apply H. reflexivity.
  - exists p. split; assumption.
Defined.

(** ** The size guard of the three-block readers *)

Lemma within_mret {A : Type} (a : A) : within_max_size (mret a).
Proof. intros s. discriminate. Qed.

Lemma within_lift {A : Type} (r : result A) :
  r <> Abort MaxSizeExceeded -> within_max_size (lift r).
Proof.
  intros Hr s. unfold lift. destruct r as [a|p]; [discriminate|].
  intros [= ->]. apply Hr. reflexivity.
Qed.

Lemma within_bind {A B : Type} (c : M A) (k : A -> M B) :
  within_max_size c -> (forall a, within_max_size (k a)) ->
  within_max_size (mbind c k).
Proof.
  intros Hc Hk s. unfold mbind.
  destruct (c s) as [[a s']|p] eqn:E.
  - apply Hk.
  - intros [= ->]. apply (Hc s). exact E.
Qed.

Lemma make_within (n : Z) : make n <> Abort MaxSizeExceeded.
Proof. unfold make. destruct (n <? 0); discriminate. Qed.

Lemma assign_within (l : list Z) (i v : Z) : assign l i v <> Abort MaxSizeExceeded.
Proof.
  unfold assign. destruct (i <? 0); [discriminate|].
  destruct (Z.of_nat (length l) <=? i); discriminate.
Qed.

Lemma ByteCount_PACKED_within (version n b : Z) :
  ByteCount PACKED version n b <> Abort MaxSizeExceeded.
Proof.
  unfold ByteCount. cbn [ByteCount_at].
  change (PACKED =? PACKED) with true. cbv iota.
  destruct (version <? PACKED_VERSION_BYTE_ALIGNED); discriminate.
Qed.

Lemma longCount_PACKED_within (version n b : Z) :
  longCount PACKED version n b <> Abort MaxSizeExceeded.
Proof.
  unfold longCount. cbn [longCount_at ByteCount_at].
  change (PACKED =? PACKED_SINGLE_BLOCK) with false.
  change (PACKED =? PACKED) with true. cbv iota.
  destruct (version <? PACKED_VERSION_BYTE_ALIGNED); cbn [result_bind];
    match goal with |- context [?x =? 0] => destruct (x =? 0) end;
    discriminate.
Qed.

Lemma ReadByte_within : within_max_size ReadByte.
Proof. intros [|[b|e] s]; discriminate. Qed.

Ltac within_step :=
  first
    [ apply within_mret
    | apply ReadByte_within
    | apply within_lift;
      first [ apply make_within | apply assign_within
            | apply ByteCount_PACKED_within | apply longCount_PACKED_within
            | discriminate ]
    | apply within_bind; [|intros ?]
    | match goal with
      | |- within_max_size (match ?x with _ => _ end) => destruct x
      | |- within_max_size (if ?x then _ else _) => destruct x
      | |- within_max_size (let (_, _) := ?x in _) => destruct x
      end ].

Lemma ReadBytes_within (buf : list Z) : within_max_size (ReadBytes buf).
Proof.
  induction buf as [|old buf IH]; cbn [ReadBytes]; repeat within_step.
  exact IH.
Qed.

Lemma read_be_within (k : nat) : forall acc, within_max_size (read_be k acc).
Proof.
  induction k as [|k IH]; intros acc; cbn [read_be]; repeat within_step.
  apply IH.
Qed.

Lemma skip_padding_within (k : nat) : within_max_size (skip_padding k).
Proof.
  induction k as [|k IH]; cbn [skip_padding]; repeat within_step.
  exact IH.
Qed.

Lemma range_fill_within (read : M (Z * error)) (values : list Z) :
  within_max_size read -> within_max_size (range_fill read values).
Proof.
  intros Hread.
  induction values as [|old values IH]; cbn [range_fill]; repeat within_step;
    assumption.
Qed.

Lemma read_longs_within (count : nat) :
  forall i blocks, within_max_size (read_longs count i blocks).
Proof.
  induction count as [|count IH]; intros i blocks; cbn [read_longs].
  - apply within_mret.
  - apply within_bind.
    + unfold ReadLong. repeat within_step.
    + intros [v err]. repeat within_step. apply IH.
Qed.

Lemma read_last_bytes_within (count : nat) :
  forall i lastLong, within_max_size (read_last_bytes count i lastLong).
Proof.
  induction count as [|count IH]; intros i lastLong; cbn [read_last_bytes];
    repeat within_step.
  apply IH.
Qed.

Lemma consume_padding_within (version n bits native : Z) :
  within_max_size (consume_padding version n bits native).
Proof.
  unfold consume_padding. repeat within_step. apply skip_padding_within.
Qed.

Ltac within_leaf :=
  first
    [ apply ReadBytes_within
    | cbv zeta; apply skip_padding_within
    | apply range_fill_within;
      unfold ReadShort, ReadInt, ReadLong; repeat within_step ].

Lemma CheckVersion_within (version : Z) :
  CheckVersion version <> Abort MaxSizeExceeded.
Proof.
  unfold CheckVersion. destruct (version <? PACKED_VERSION_START); [discriminate|].
  destruct (PACKED_VERSION_CURRENT <? version); discriminate.
Qed.

Lemma allocation_within {A : Type} (n : Z) (k : list Z -> A) :
  result_bind (make n) (fun cells => Ok (k cells)) <> Abort MaxSizeExceeded.
Proof.
  unfold result_bind. destruct (make n) as [cells|p] eqn:E; [discriminate|].
  intros [= ->]. apply (make_within n). exact E.
Qed.

Lemma newDirect8FromInput_within (version n : Z) :
  within_max_size (newDirect8FromInput version n).
Proof.
  unfold newDirect8FromInput, newDirect8.
  apply within_bind; [apply within_lift, allocation_within|intros r].
  repeat within_step; within_leaf.
Qed.

Lemma newDirect16FromInput_within (version n : Z) :
  within_max_size (newDirect16FromInput version n).
Proof.
  unfold newDirect16FromInput, newDirect16.
  apply within_bind; [apply within_lift, allocation_within|intros r].
  repeat within_step; within_leaf.
Qed.

Lemma newDirect32FromInput_within (version n : Z) :
  within_max_size (newDirect32FromInput version n).
Proof.
  unfold newDirect32FromInput, newDirect32.
  apply within_bind; [apply within_lift, allocation_within|intros r].
  repeat within_step; within_leaf.
Qed.

Lemma newDirect64FromInput_within (version n : Z) :
  within_max_size (newDirect64FromInput version n).
Proof.
  unfold newDirect64FromInput, newDirect64.
  apply within_bind; [apply within_lift, allocation_within|intros r].
  repeat within_step; within_leaf.
Qed.

Lemma newPacked8ThreeBlocksFromInput_within (version n : Z) :
  n <= PACKED8_THREE_BLOCKS_MAX_SIZE ->
  within_max_size (newPacked8ThreeBlocksFromInput version n).
Proof.
  intros Hn.
  unfold newPacked8ThreeBlocksFromInput, newPacked8ThreeBlocks.
  destruct (Z.ltb_spec PACKED8_THREE_BLOCKS_MAX_SIZE n); [lia|].
  apply within_bind; [apply within_lift, allocation_within|intros r].
  repeat within_step; within_leaf.
Qed.

Lemma newPacked16ThreeBlocksFromInput_within (version n : Z) :
  n <= PACKED16_THREE_BLOCKS_MAX_SIZE ->
  within_max_size (newPacked16ThreeBlocksFromInput version n).
Proof.
  intros Hn.
  unfold newPacked16ThreeBlocksFromInput, newPacked16ThreeBlocks.
  destruct (Z.ltb_spec PACKED16_THREE_BLOCKS_MAX_SIZE n); [lia|].
  apply within_bind; [apply within_lift, allocation_within|intros r].
  repeat within_step; within_leaf.
Qed.

Lemma newPacked64_within (n b : Z) : newPacked64 n b <> Abort MaxSizeExceeded.
Proof.
  unfold newPacked64, result_bind.
  destruct (longCount PACKED PACKED_VERSION_CURRENT n b) as [longs|p] eqn:E.
  - destruct (make longs) as [blocks|p] eqn:E'; [discriminate|].
    intros [= ->]. apply (make_within longs). exact E'.
  - intros [= ->]. apply (longCount_PACKED_within PACKED_VERSION_CURRENT n b).
    exact E.
Qed.

Lemma newPacked64FromInput_within (version n b : Z) :
  within_max_size (newPacked64FromInput version n b).
Proof.
  unfold newPacked64FromInput.
  apply within_bind; [apply within_lift, newPacked64_within|intros ans].
  apply within_bind; [apply within_lift, ByteCount_PACKED_within|intros bc].
  apply within_bind; [apply within_lift, longCount_PACKED_within|intros longs].
  apply within_bind; [apply within_lift, make_within|intros blocks].
  apply within_bind; [apply read_longs_within|intros [blocks' [e|]]].
  - apply within_mret.
  - destruct (bc `rem` 8 =? 0); [apply within_mret|].
    apply within_bind; [apply read_last_bytes_within|intros lastLong].
    apply within_bind; [apply within_lift, assign_within|intros blocks''].
    apply within_mret.
Qed.

(** X12. The size guard of the three-block readers. Called on its own with
    a value count above [MaxInt32/3], each of [newPacked8ThreeBlocksFromInput]
    and [newPacked16ThreeBlocksFromInput] panics with ["MAX_SIZE exceeded"]
    before it reads anything. [newPackedHeaderNoHeader] never lets that
    happen: whatever its arguments and the input, it does not end in that
    panic (it hands such counts to the Packed64 constructor), provided the
    single-block constructor does not. *)
Theorem MAX_SIZE_guard
    (single : Z -> Z -> M (option PackedIntsReader * error))
    (format : PackedFormat) (version n b : Z) (s : DataInput) :
  (MaxInt32 `quot` 3 < n ->
     newPacked8ThreeBlocksFromInput version n s = Abort MaxSizeExceeded /\
     newPacked16ThreeBlocksFromInput version n s = Abort MaxSizeExceeded) /\
  ((forall n' b' s', single n' b' s' <> Abort MaxSizeExceeded) ->
     newPackedHeaderNoHeader single format version n b s <> Abort MaxSizeExceeded).
Proof.
  destruct three_blocks_bound as (B8 & B16 & _).
  split.
  - intros Hn.
    unfold newPacked8ThreeBlocksFromInput, newPacked8ThreeBlocks,
      newPacked16ThreeBlocksFromInput, newPacked16ThreeBlocks.
    rewrite B8, B16.
    destruct (Z.ltb_spec (MaxInt32 `quot` 3) n); [|lia].
    split; reflexivity.
  - intros Hsingle. revert s.
    change (within_max_size (newPackedHeaderNoHeader single format version n b)).
    unfold newPackedHeaderNoHeader.
    apply within_bind; [apply within_lift, CheckVersion_within|intros _].
    destruct (format =? PACKED_SINGLE_BLOCK); [intros s; apply Hsingle|].
    destruct (format =? PACKED); [|apply within_lift; discriminate].
    destruct (b =? 8); [apply newDirect8FromInput_within|].
    destruct (b =? 16); [apply newDirect16FromInput_within|].
    destruct (b =? 32); [apply newDirect32FromInput_within|].
    destruct (b =? 64); [apply newDirect64FromInput_within|].
    destruct (b =? 24).
    { destruct (Z.leb_spec n PACKED8_THREE_BLOCKS_MAX_SIZE).
      - apply newPacked8ThreeBlocksFromInput_within. assumption.
      - apply newPacked64FromInput_within. }
    destruct (b =? 48).
    { destruct (Z.leb_spec n PACKED16_THREE_BLOCKS_MAX_SIZE).
      - apply newPacked16ThreeBlocksFromInput_within. assumption.
      - apply newPacked64FromInput_within. }
    apply newPacked64FromInput_within.
Qed.

Lemma MAX_SIZE_guard_witness :
  newPacked8ThreeBlocksFromInput 1 715827883 [] = Abort MaxSizeExceeded /\
  newPackedHeaderNoHeader (fun _ _ => mret (None, None)) PACKED 1 715827883 24 [] <>
    Abort MaxSizeExceeded.
Proof.
  destruct (MAX_SIZE_guard (fun _ _ => mret (None, None)) PACKED 1 715827883 24 [])
    as [Hdirect Hfactory].
  split.
  - apply Hdirect. vm_compute. reflexivity.
  - apply Hfactory. intros n' b' s'. discriminate.
Defined.

(** ** Reader with header *)

(** X13. [newPackedReader] reads the header, then the width, the value
    count and the format identifier, in that order. If one of these four
    reads returns an error, it returns that error with a [nil] reader and
    reads nothing further; otherwise it is the call of the dispatch on the
    format identifier, the header's version, the value count and the width. *)
Theorem newPackedReader_header
    (single : Z -> Z -> M (option PackedIntsReader * error))
    (CheckHeader ReadVInt : M (Z * error))
    (s s1 s2 s3 s4 : DataInput) (version b n id : Z) (e : IOError) :
  (CheckHeader s = Ok ((version, Some e), s1) ->
     newPackedReader single CheckHeader ReadVInt s = Ok ((None, Some e), s1)) /\
  (CheckHeader s = Ok ((version, None), s1) ->
     (ReadVInt s1 = Ok ((b, Some e), s2) ->
        newPackedReader single CheckHeader ReadVInt s = Ok ((None, Some e), s2)) /\
     (ReadVInt s1 = Ok ((b, None), s2) ->
        (ReadVInt s2 = Ok ((n, Some e), s3) ->
           newPackedReader single CheckHeader ReadVInt s = Ok ((None, Some e), s3)) /\
        (ReadVInt s2 = Ok ((n, None), s3) ->
           (ReadVInt s3 = Ok ((id, Some e), s4) ->
              newPackedReader single CheckHeader ReadVInt s =
                Ok ((None, Some e), s4)) /\
           (ReadVInt s3 = Ok ((id, None), s4) ->
              newPackedReader single CheckHeader ReadVInt s =
                newPackedHeaderNoHeader single id version n b s4)))).
Proof.
  unfold newPackedReader.
  split; [intros E0; erewrite mbind_ok by exact E0; reflexivity|].
  intros E0. erewrite mbind_ok by exact E0. cbv iota beta.
  split; [intros E1; erewrite mbind_ok by exact E1; reflexivity|].
  intros E1. erewrite mbind_ok by exact E1. cbv iota beta.
  split; [intros E2; erewrite mbind_ok by exact E2; reflexivity|].
  intros E2. erewrite mbind_ok by exact E2. cbv iota beta.
  split; intros E3; erewrite mbind_ok by exact E3; reflexivity.
Qed.

Lemma newPackedReader_header_witness :
  newPackedReader (fun _ _ => mret (None, None)) ReadInt ReadByte
    [Byte 0; Byte 0; Byte 0; Byte 1; Byte 8; Fail (ReadFailure 4); Byte 0] =
    Ok ((None, Some (ReadFailure 4)), [Byte 0]) /\
  newPackedReader (fun _ _ => mret (None, None)) ReadInt ReadByte
    [Byte 0; Byte 0; Byte 0; Byte 1; Byte 8; Byte 2; Byte 0; Byte 5; Byte 6] =
    newPackedHeaderNoHeader (fun _ _ => mret (None, None)) 0 1 2 8 [Byte 5; Byte 6].
Proof.
  split.
  - destruct (newPackedReader_header (fun _ _ => mret (None, None)) ReadInt ReadByte
                [Byte 0; Byte 0; Byte 0; Byte 1; Byte 8; Fail (ReadFailure 4); Byte 0]
                [Byte 8; Fail (ReadFailure 4); Byte 0]
                [Fail (ReadFailure 4); Byte 0] [Byte 0] []
                1 8 0 0 (ReadFailure 4)) as [_ H].
    destruct (H eq_refl) as [_ H1].
    destruct (H1 eq_refl) as [H2 _].
    apply H2. reflexivity.
  - destruct (newPackedReader_header (fun _ _ => mret (None, None)) ReadInt ReadByte
                [Byte 0; Byte 0; Byte 0; Byte 1; Byte 8; Byte 2; Byte 0; Byte 5; Byte 6]
                [Byte 8; Byte 2; Byte 0; Byte 5; Byte 6]
                [Byte 2; Byte 0; Byte 5; Byte 6] [Byte 0; Byte 5; Byte 6]
                [Byte 5; Byte 6]
                1 8 2 0 EOF) as [_ H].
    destruct (H eq_refl) as [_ H1].
    destruct (H1 eq_refl) as [_ H2].
    destruct (H2 eq_refl) as [_ H3].
    apply H3. reflexivity.
Defined.

(** * Properties of the pool of int blocks *)

Section PoolProperties.

Import IntBlockPool.

Variable Allocator : Type.
Variable Recycle : Allocator -> list block -> Allocator.

#[local] Abbreviation pool_t := (IntBlockPool.t Allocator).
#[local] Abbreviation Reset := (IntBlockPool.Reset Allocator Recycle).

Lemma nil_out_spec (count : nat) :
  forall (i : nat) (cells : list block),
    (i + count <= length cells)%nat ->
    nil_out count i cells =
      (take i cells ++ replicate count None ++ drop (i + count) cells, true).
Proof.
  induction count as [|count IH]; intros i cells Hfit.
  - cbn [nil_out replicate app]. rewrite Nat.add_0_r, take_drop. reflexivity.
  - cbn [nil_out]. destruct (decide (i < length cells)%nat) as [Hi|Hi]; [|lia].
    rewrite IH by (rewrite length_insert; lia).
    rewrite (take_S_r (<[i := None]> cells) i None)
      by (apply list_lookup_insert_eq; exact Hi).
    rewrite take_insert_ge by lia.
    rewrite drop_insert_lt by lia.
    rewrite <- app_assoc. cbn [replicate app].
    replace (S i + count)%nat with (i + S count)%nat by lia.
    reflexivity.
Qed.

Lemma sub_within_len (s : slice) (low high : nat) :
  (low <= high <= length (elems s))%nat ->
  sub s (Z.of_nat low) (Z.of_nat high) =
    Some (take (high - low) (drop low (elems s))).
Proof.
  intros Hfit. unfold sub.
  destruct (Z.leb_spec 0 (Z.of_nat low)); [|lia].
  destruct (Z.leb_spec (Z.of_nat low) (Z.of_nat high)); [|lia].
  destruct (Z.leb_spec (Z.of_nat high)
              (Z.of_nat (length (elems s) + length (spare s)))); [|lia].
  cbn [andb]. f_equal.
  replace (Z.to_nat (Z.of_nat high - Z.of_nat low)) with (high - low)%nat by lia.
  rewrite Nat2Z.id, drop_app_le by lia.
  apply take_app_le. rewrite length_drop. lia.
Qed.

(** X14. [Reset(false, false)] on a pool that holds buffers [0..k] hands
    exactly these buffers to the allocator in one [Recycle] call, sets their
    cells to [nil] and leaves the cells after them alone, and puts the
    counters back to those of a new pool. A pool reset this way is left
    unchanged by any further [Reset], whatever its flags. *)
Theorem Reset_recycles_used_buffers (pool : pool_t) (a : Allocator) (k : nat) :
  allocator Allocator pool = Some a ->
  bufferUpto Allocator pool = Z.of_nat k ->
  (k < length (elems (buffers Allocator pool)))%nat ->
  Z.of_nat k < 2 ^ 62 ->
  let cells := elems (buffers Allocator pool) in
  let pool' :=
    {| buffers := {| elems := replicate (S k) None ++ drop (S k) cells;
                     spare := spare (buffers Allocator pool) |};
       bufferUpto := -1;
       IntUpto := INT_BLOCK_SIZE;
       Buffer := None;
       IntOffset := - INT_BLOCK_SIZE;
       allocator := Some (Recycle a (take (S k) cells)) |} in
  Reset pool false false = (Returned, pool') /\
  (forall zeroFillBuffers reuseFirst,
     Reset pool' zeroFillBuffers reuseFirst = (Returned, pool')).
Proof.
  intros Ha Hk Hlen Hbig. cbv zeta. split; [|reflexivity].
  unfold IntBlockPool.Reset. rewrite Hk.
  destruct (Z.eqb_spec (Z.of_nat k) (-1)); [lia|].
  cbn [negb orb]. rewrite Bool.orb_true_r.
  unfold recycle_buffers. rewrite Hk, Ha.
  rewrite int64_small by lia.
  replace (1 + Z.of_nat k) with (Z.of_nat (S k)) by lia.
  rewrite (sub_within_len _ 0 (S k)) by lia.
  replace (Z.to_nat (Z.of_nat k - 0 + 1)) with (S k) by lia.
  change (Z.to_nat 0) with 0%nat.
  rewrite nil_out_spec by lia.
  rewrite drop_0, Nat.sub_0_r, take_0. cbn [app Nat.add].
  reflexivity.
Qed.

(** X15. The modes of [Reset] that are not implemented, on a pool that
    holds buffers [0..k]. With [zeroFillBuffers] it panics and leaves the
    pool as it was. With [reuseFirst] alone it panics too, but only after it
    recycled the buffers [1..k] and set their cells to [nil]: the pool is
    left with its counters unchanged over buffers that were given away. *)
Theorem Reset_not_implemented (pool : pool_t) (a : Allocator) (k : nat) :
  allocator Allocator pool = Some a ->
  bufferUpto Allocator pool = Z.of_nat k ->
  (k < length (elems (buffers Allocator pool)))%nat ->
  Z.of_nat k < 2 ^ 62 ->
  let cells := elems (buffers Allocator pool) in
  (forall reuseFirst, Reset pool true reuseFirst = (NotImplementedYet, pool)) /\
  (k = 0%nat -> Reset pool false true = (NotImplementedYet, pool)) /\
  ((0 < k)%nat ->
   Reset pool false true =
     (NotImplementedYet,
      with_cells Allocator pool
        (take 1 cells ++ replicate k None ++ drop (S k) cells)
        (Some (Recycle a (take k (drop 1 cells)))))).
Proof.
  intros Ha Hk Hlen Hbig. cbv zeta.
  unfold IntBlockPool.Reset. rewrite Hk.
  destruct (Z.eqb_spec (Z.of_nat k) (-1)); [lia|].
  split; [reflexivity|split].
  - intros ->. reflexivity.
  - intros Hpos.
    destruct (Z.ltb_spec 0 (Z.of_nat k)); [|lia].
    cbn [negb orb].
    unfold recycle_buffers. rewrite Hk, Ha.
    rewrite int64_small by lia.
    replace (1 + Z.of_nat k) with (Z.of_nat (S k)) by lia.
    rewrite (sub_within_len _ 1 (S k)) by lia.
    replace (Z.to_nat (Z.of_nat k - 1 + 1)) with k by lia.
    change (Z.to_nat 1) with 1%nat.
    rewrite nil_out_spec by lia.
    replace (S k - 1)%nat with k by lia.
    replace (1 + k)%nat with (S k) by lia.
    reflexivity.
Qed.

End PoolProperties.

Lemma Reset_recycles_used_buffers_witness :
  IntBlockPool.Reset (list (list IntBlockPool.block)) (fun log blocks => blocks :: log)
    {| IntBlockPool.buffers :=
         {| IntBlockPool.elems := [Some [1]; Some [2]; None];
            IntBlockPool.spare := [] |};
       IntBlockPool.bufferUpto := 1;
       IntBlockPool.IntUpto := 5;
       IntBlockPool.Buffer := Some [2];
       IntBlockPool.IntOffset := 8192;
       IntBlockPool.allocator := Some [] |} false false =
  (IntBlockPool.Returned,
   {| IntBlockPool.buffers :=
        {| IntBlockPool.elems := [None; None; None];
           IntBlockPool.spare := [] |};
      IntBlockPool.bufferUpto := -1;
      IntBlockPool.IntUpto := 8192;
      IntBlockPool.Buffer := None;
      IntBlockPool.IntOffset := -8192;
      IntBlockPool.allocator := Some [[Some [1]; Some [2]]] |}).
Proof.
  destruct (Reset_recycles_used_buffers (list (list IntBlockPool.block))
              (fun log blocks => blocks :: log)
              {| IntBlockPool.buffers :=
                   {| IntBlockPool.elems := [Some [1]; Some [2]; None];
                      IntBlockPool.spare := [] |};
                 IntBlockPool.bufferUpto := 1;
                 IntBlockPool.IntUpto := 5;
                 IntBlockPool.Buffer := Some [2];
                 IntBlockPool.IntOffset := 8192;
                 IntBlockPool.allocator := Some [] |} [] 1%nat
              eq_refl eq_refl ltac:(cbn; lia) ltac:(lia))
    as [H _].
  exact H.
Defined.

Lemma Reset_not_implemented_witness :
  IntBlockPool.Reset (list (list IntBlockPool.block)) (fun log blocks => blocks :: log)
    {| IntBlockPool.buffers :=
         {| IntBlockPool.elems := [Some [1]; Some [2]; None];
            IntBlockPool.spare := [] |};
       IntBlockPool.bufferUpto := 1;
       IntBlockPool.IntUpto := 5;
       IntBlockPool.Buffer := Some [2];
       IntBlockPool.IntOffset := 8192;
       IntBlockPool.allocator := Some [] |} false true =
  (IntBlockPool.NotImplementedYet,
   {| IntBlockPool.buffers :=
        {| IntBlockPool.elems := [Some [1]; None; None];
           IntBlockPool.spare := [] |};
      IntBlockPool.bufferUpto := 1;
      IntBlockPool.IntUpto := 5;
      IntBlockPool.Buffer := Some [2];
      IntBlockPool.IntOffset := 8192;
      IntBlockPool.allocator := Some [[Some [2]]] |}).
Proof.
  destruct (Reset_not_implemented (list (list IntBlockPool.block))
              (fun log blocks => blocks :: log)
              {| IntBlockPool.buffers :=
                   {| IntBlockPool.elems := [Some [1]; Some [2]; None];
                      IntBlockPool.spare := [] |};
                 IntBlockPool.bufferUpto := 1;
                 IntBlockPool.IntUpto := 5;
                 IntBlockPool.Buffer := Some [2];
                 IntBlockPool.IntOffset := 8192;
                 IntBlockPool.allocator := Some [] |} [] 1%nat
              eq_refl eq_refl ltac:(cbn; lia) ltac:(lia))
    as (_ & _ & H).
  apply H. lia.
Defined.

(** * Properties of the fields of a document *)

Section FieldProperties.

Import Field.

Variables Float32 Float64 Reader TokenStream IndexOptions : Type.
Variable Itoa : Z -> string.
Variable INDEX_OPT_DOCS_ONLY : IndexOptions.
Variable newFieldType : FieldType IndexOptions.

#[local] Abbreviation field :=
  (Field.t Float32 Float64 Reader TokenStream IndexOptions).
#[local] Abbreviation NewStringField :=
  (Field.NewStringField Float32 Float64 Reader TokenStream IndexOptions).
#[local] Abbreviation NewTextField :=
  (Field.NewTextField Float32 Float64 Reader TokenStream IndexOptions
     INDEX_OPT_DOCS_ONLY newFieldType).
#[local] Abbreviation StringValue :=
  (Field.StringValue Float32 Float64 Reader TokenStream IndexOptions Itoa).

Lemma nonempty_eqb (v : string) : v <> "" -> negb (String.eqb v "") = true.
Proof.
  intros Hv. destruct (String.eqb_spec v ""); [contradiction|reflexivity].
Qed.

Lemma NewStringField_accepts (name value : string) (ty : FieldType IndexOptions) :
  name <> "" -> value <> "" -> stored _ ty || indexed _ ty = true ->
  NewStringField name value (Some ty) =
    Returns {| _type := Some ty; _name := name; _data := IsString _ _ _ value;
               _boost := 1; _tokenStream := None |}.
Proof.
  intros Hname Hvalue Hty. unfold Field.NewStringField, assert2.
  rewrite (nonempty_eqb name Hname), (nonempty_eqb value Hvalue), Hty.
  reflexivity.
Qed.

(** X16. [NewStringField] checks, in this order, that the name is not
    empty, that the value is not empty, and that the type is stored or
    indexed (a [nil] type is dereferenced there); each failure is a panic of
    its own. Otherwise the field it returns gives back the name, the value
    as its string value, the type, a boost of 1, and no numeric, binary or
    reader value. *)
Theorem NewStringField_round_trip
    (name value : string) (ft : option (FieldType IndexOptions)) :
  (name = "" -> NewStringField name value ft = Panics "name cannot be empty") /\
  (name <> "" -> value = "" ->
     NewStringField name value ft = Panics "value cannot be empty") /\
  (name <> "" -> value <> "" ->
     (ft = None -> NewStringField name value ft = NilDereference) /\
     (forall ty, ft = Some ty ->
        (stored _ ty || indexed _ ty = false ->
           NewStringField name value ft =
             Panics "it doesn't make sense to have a field that is neither indexed nor stored") /\
        (stored _ ty || indexed _ ty = true ->
           exists f : field,
             NewStringField name value ft = Returns f /\
             Name _ _ _ _ _ f = name /\
             StringValue f = Returns value /\
             FieldType_of _ _ _ _ _ f = ft /\
             Boost _ _ _ _ _ f = 1 /\
             NumericValue _ _ _ _ _ f = None /\
             BinaryValue _ _ _ _ _ f = None /\
             ReaderValue _ _ _ _ _ f = None))).
Proof.
  split; [intros ->; reflexivity|].
  split; [intros Hname ->; unfold Field.NewStringField, assert2;
          rewrite (nonempty_eqb name Hname); reflexivity|].
  intros Hname Hvalue. split.
  - intros ->. unfold Field.NewStringField, assert2.
    rewrite (nonempty_eqb name Hname), (nonempty_eqb value Hvalue). reflexivity.
  - intros ty ->. split; intros Hty.
    + unfold Field.NewStringField, assert2.
      rewrite (nonempty_eqb name Hname), (nonempty_eqb value Hvalue), Hty.
      reflexivity.
    + eexists. split; [apply NewStringField_accepts; assumption|].
      repeat split.
Qed.

(** X17. [NewTextField] with a non-empty name and value: with [STORE_YES]
    it returns a field of the stored text type and with [STORE_NO] a field
    of the other text type, both indexed and marked not tokenized, whose
    string value is the value given; with any other [Store], the zero value
    included, the map of types has no entry and the call dereferences
    [nil]. *)
Theorem NewTextField_store (name value : string) (store : Store) :
  name <> "" -> value <> "" ->
  (store = STORE_YES \/ store = STORE_NO ->
     exists (f : field) ty,
       NewTextField name value store = Returns f /\
       FieldType_of _ _ _ _ _ f = Some ty /\
       indexed _ ty = true /\ _tokenized _ ty = false /\
       (store = STORE_YES -> stored _ ty = true) /\
       (store = STORE_NO -> stored _ ty = stored _ newFieldType) /\
       Name _ _ _ _ _ f = name /\
       StringValue f = Returns value) /\
  (store <> STORE_YES -> store <> STORE_NO ->
     NewTextField name value store = NilDereference).
Proof.
  intros Hname Hvalue. unfold Field.NewTextField. split.
  - intros [-> | ->].
    + rewrite lookup_insert_eq.
      eexists _, _.
      split; [apply NewStringField_accepts;
              [assumption|assumption|apply Bool.orb_true_r]|].
      repeat split. intros H. discriminate H.
    + rewrite lookup_insert_ne, lookup_singleton_eq by discriminate.
      eexists _, _.
      split; [apply NewStringField_accepts;
              [assumption|assumption|apply Bool.orb_true_r]|].
      repeat split. intros H. discriminate H.
  - intros Hyes Hno.
    rewrite lookup_insert_ne, lookup_singleton_ne by congruence.
    unfold Field.NewStringField, assert2.
    rewrite (nonempty_eqb name Hname), (nonempty_eqb value Hvalue). reflexivity.
Qed.

End FieldProperties.

Lemma NewStringField_round_trip_witness :
  exists f,
    Field.NewStringField unit unit unit unit unit "title" "Moby Dick"
      (Some {| Field.indexed := true; Field.stored := false;
               Field._tokenized := false; Field._omitNorms := false;
               Field._indexOptions := tt; Field.frozen := false |}) =
      Field.Returns f /\
    Field.StringValue unit unit unit unit unit (fun _ => "") f =
      Field.Returns "Moby Dick".
Proof.
  destruct (NewStringField_round_trip unit unit unit unit unit (fun _ => "")
              "title" "Moby Dick"
              (Some {| Field.indexed := true; Field.stored := false;
                       Field._tokenized := false; Field._omitNorms := false;
                       Field._indexOptions := tt; Field.frozen := false |}))
    as (_ & _ & H).
  destruct (H ltac:(discriminate) ltac:(discriminate)) as [_ Hty].
  destruct (Hty _ eq_refl) as [_ Hok].
  destruct (Hok eq_refl) as (f & Hf & _ & Hs & _).
  exists f. split; assumption.
Defined.

Lemma NewTextField_store_witness :
  Field.NewTextField unit unit unit unit unit tt
    {| Field.indexed := false; Field.stored := false;
       Field._tokenized := true; Field._omitNorms := false;
       Field._indexOptions := tt; Field.frozen := false |}
    "body" "call me Ishmael" 0 = Field.NilDereference.
Proof.
  destruct (NewTextField_store unit unit unit unit unit (fun _ => "") tt
              {| Field.indexed := false; Field.stored := false;
                 Field._tokenized := true; Field._omitNorms := false;
                 Field._indexOptions := tt; Field.frozen := false |}
              "body" "call me Ishmael" 0 ltac:(discriminate) ltac:(discriminate))
    as [_ H].
  apply H; discriminate.
Defined.

(** * Properties of the single-token stream *)

Section StreamProperties.

Import StringTokenStream.

Variable AttributeSource : Type.
Variable Clear : AttributeSource -> AttributeSource.
Variable AppendString : AttributeSource -> string -> AttributeSource.
Variable SetOffset : AttributeSource -> Z -> Z -> AttributeSource.
Variable fresh : AttributeSource.

#[local] Abbreviation stream := (StringTokenStream.t AttributeSource).
#[local] Abbreviation run :=
  (StringTokenStream.run AttributeSource Clear AppendString SetOffset).

Lemma run_used (calls : list call) :
  forall ts : stream,
    used _ ts = true ->
    fst (run calls ts) = replicate (length (fst (run calls ts))) false /\
    attributes _ (snd (run calls ts)) = attributes _ ts /\
    used _ (snd (run calls ts)) = true.
Proof.
  induction calls as [|c calls IH]; intros ts Hused; [auto|].
  destruct c as [v| | |]; cbn [StringTokenStream.run].
  - apply (IH (setValue _ ts v)). exact Hused.
  - unfold IncrementToken. rewrite Hused.
    destruct (IH ts Hused) as (Hres & Hattr & Hu).
    destruct (run calls ts) as [results ts'] eqn:E.
    cbn [fst snd length replicate] in *. rewrite <- Hres. auto.
  - apply (IH ts Hused).
  - apply (IH ts Hused).
Qed.

(** X18. A [StringTokenStream] gives its token once. Whatever the consumer
    calls and in whatever order ([setValue], [IncrementToken], [Reset],
    [Close]), at most the first [IncrementToken] returns [true]. Every later
    [IncrementToken] returns [false] and leaves the attributes alone:
    neither [Reset], which the stream takes from [TokenStreamImpl], nor a new
    [setValue] makes a consumed stream give a token again. On a new stream,
    [setValue(v)] then [IncrementToken] leaves the attributes cleared, then
    [v] appended to the term, then the offsets set to 0 and the length of
    [v], whatever is called afterwards. *)
Theorem StringTokenStream_gives_one_token (calls : list call) (ts : stream) :
  (used _ ts = true ->
     fst (run calls ts) = replicate (length (fst (run calls ts))) false /\
     attributes _ (snd (run calls ts)) = attributes _ ts) /\
  (used _ ts = false ->
     fst (run calls ts) = [] \/
     exists k v,
       fst (run calls ts) = true :: replicate k false /\
       attributes _ (snd (run calls ts)) =
         SetOffset (AppendString (Clear (attributes _ ts)) v) 0
                   (Z.of_nat (String.length v))) /\
  (forall v,
     exists k,
       fst (run (CallSetValue v :: CallIncrementToken :: calls)
                (newStringTokenStream _ fresh)) = true :: replicate k false /\
       attributes _ (snd (run (CallSetValue v :: CallIncrementToken :: calls)
                              (newStringTokenStream _ fresh))) =
         SetOffset (AppendString (Clear fresh) v) 0 (Z.of_nat (String.length v))).
Proof.
  split; [|split].
  - intros Hused. destruct (run_used calls ts Hused) as (H1 & H2 & _). auto.
  - revert ts. induction calls as [|c calls IH]; intros ts Hfree; [left; reflexivity|].
    destruct c as [v| | |]; cbn [StringTokenStream.run].
    + destruct (IH (setValue _ ts v) Hfree) as [Hnone|(k & v' & Hres & Hattr)];
        [left; exact Hnone|right; exists k, v'; auto].
    + right. unfold IncrementToken. rewrite Hfree. cbv zeta.
      set (ts1 := {| attributes := _; used := true; value := value _ ts |}).
      destruct (run_used calls ts1 eq_refl) as (Hres & Hattr & _).
      destruct (run calls ts1) as [results ts'] eqn:E.
      cbn [fst snd] in *.
      exists (length results), (value _ ts). rewrite <- Hres. auto.
    + apply (IH ts Hfree).
    + apply (IH ts Hfree).
  - intros v. cbn [StringTokenStream.run].
    unfold IncrementToken, setValue, newStringTokenStream.
    cbn [used value attributes]. cbv zeta.
    set (ts1 := {| attributes := _; used := true; value := v |}).
    destruct (run_used calls ts1 eq_refl) as (Hres & Hattr & _).
    destruct (run calls ts1) as [results ts'] eqn:E.
    cbn [fst snd] in *.
    exists (length results). rewrite <- Hres. auto.
Qed.

End StreamProperties.

Lemma StringTokenStream_gives_one_token_witness :
  fst (StringTokenStream.run (list string) (fun _ => []) (fun a v => v :: a)
         (fun a _ _ => a)
         [StringTokenStream.CallSetValue "a"; StringTokenStream.CallIncrementToken;
          StringTokenStream.CallIncrementToken; StringTokenStream.CallReset;
          StringTokenStream.CallSetValue "b"; StringTokenStream.CallIncrementToken]
         (StringTokenStream.newStringTokenStream (list string) [])) =
    [true; false; false].
Proof.
  destruct (StringTokenStream_gives_one_token (list string) (fun _ => [])
              (fun a v => v :: a) (fun a _ _ => a) []
              [StringTokenStream.CallSetValue "a"; StringTokenStream.CallIncrementToken;
               StringTokenStream.CallIncrementToken; StringTokenStream.CallReset;
               StringTokenStream.CallSetValue "b"; StringTokenStream.CallIncrementToken]
              (StringTokenStream.newStringTokenStream (list string) []))
    as (_ & H & _).
  destruct (H eq_refl) as [Hnone|(k & v & Hres & _)].
  - discriminate Hnone.
  - rewrite Hres. injection Hres as <-. reflexivity.
Defined.
